(** * Swift reflection type references (include/swift/Reflection/TypeRef.h)

    A shallow embedding of the TypeRef node family, of the identifier
    [TypeRefID] used for uniquing, of the find-or-create protocol
    [FIND_OR_CREATE_TYPEREF] and of the visitor dispatch, followed by the
    properties of the reflection core that are established on it.

    Conventions.
    - A [uint32_t] / [uint64_t] is a [Z] with its wrap-around written out.
    - A [std::string] is a [string]; a [char] is an [ascii].
    - A [const TypeRef *] is a [nat] handle: [0] is [nullptr], [S i] is the
      node stored at index [i] of the builder's pool.
    - The target is little endian and LP64, with a signed [char] (see
      [sizeof_pointer] and [char_is_signed]). *)

From Stdlib Require Import ZArith String Ascii List Lia Bool.
From stdpp Require Import base option list gmap strings.

(* ===================================================================== *)
(** ** Machine integers and characters *)
(* ===================================================================== *)

Section Machine.
Local Open Scope Z_scope.

Definition to_uint32 (z : Z) : Z := z mod 2 ^ 32.
Definition to_uint64 (z : Z) : Z := z mod 2 ^ 64.

(** [x << k] on a [uint32_t]. *)
Definition shl32 (x : Z) (k : Z) : Z := to_uint32 (Z.shiftl x k).

(** [a + b] on [uint32_t]. *)
Definition add32 (a b : Z) : Z := to_uint32 (a + b).

(** Plain [char] is signed on the supported targets. *)
Definition char_is_signed : bool := true.

(** Size of [const T *] in bytes. *)
Definition sizeof_pointer : Z := 8.

Definition byte_of_char (c : ascii) : Z := Z.of_N (N_of_ascii c).

(** The value of a [char] as a C++ integer. *)
Definition char_value (c : ascii) : Z :=
  let b := byte_of_char c in
  if char_is_signed && (128 <=? b) then b - 256 else b.

(** [(uint32_t) c] for a [char] [c]. *)
Definition uint32_of_char (c : ascii) : Z := to_uint32 (char_value c).

End Machine.

(** [String[i]]; the code only reads below [String.size()]. *)
Definition string_at (s : string) (i : nat) : ascii :=
  default Ascii.zero (String.get i s).

(* ===================================================================== *)
(** ** TypeRefID *)
(* ===================================================================== *)

Record TypeRefID : Type := mkTypeRefID { Bits : list Z }.

#[global] Instance TypeRefID_eq_dec : EqDecision TypeRefID.
Proof. solve_decision. Defined.

#[global] Instance TypeRefID_countable : Countable TypeRefID :=
  inj_countable' Bits mkTypeRefID (fun x => match x with mkTypeRefID _ => eq_refl end).

Module ID.
Local Open Scope Z_scope.

(** [TypeRefID() = default]. *)
Definition empty : TypeRefID := mkTypeRefID [].

Definition push_back (id : TypeRefID) (w : Z) : TypeRefID :=
  mkTypeRefID (Bits id ++ [w]).

(** [addPointer]: [Raw[0]], and [Raw[1]] when pointers are wider than 4
    bytes (little endian). *)
Definition addPointer (id : TypeRefID) (Pointer : nat) : TypeRefID :=
  let raw := Z.of_nat Pointer in
  let id := push_back id (to_uint32 raw) in
  if 4 <? sizeof_pointer
  then push_back id (to_uint32 (Z.shiftr raw 32))
  else id.

(** [addInteger(uint32_t)]. *)
Definition addInteger32 (id : TypeRefID) (Integer : Z) : TypeRefID :=
  push_back id Integer.

(** [addInteger(uint64_t)]. *)
Definition addInteger64 (id : TypeRefID) (Integer : Z) : TypeRefID :=
  let id := push_back id (to_uint32 Integer) in
  push_back id (to_uint32 (Z.shiftr Integer 32)).

(** The word built from [String[i..i+3]] in the first loop of [addString]. *)
Definition chunk_entry (s : string) (i : nat) : Z :=
  add32 (add32 (add32 (uint32_of_char (string_at s i))
                      (shl32 (uint32_of_char (string_at s (i + 1))) 8))
               (shl32 (uint32_of_char (string_at s (i + 2))) 16))
        (shl32 (uint32_of_char (string_at s (i + 3))) 24).

(** [for (chunk = 0; chunk < chunks; ++chunk, i += 4)], by recursion on
    the number of iterations left; returns the final [i] as well. *)
Fixpoint addString_chunks (s : string) (left : nat) (i : nat)
    (id : TypeRefID) : nat * TypeRefID :=
  match left with
  | O => (i, id)
  | S left' =>
      addString_chunks s left' (i + 4) (push_back id (chunk_entry s i))
  end.

(** [for (; i < String.size(); ++i)], by recursion on [size - i]. *)
Fixpoint addString_tail (s : string) (left : nat) (i : nat)
    (id : TypeRefID) : TypeRefID :=
  match left with
  | O => id
  | S left' =>
      addString_tail s left' (i + 1)
        (push_back id (uint32_of_char (string_at s i)))
  end.

Definition addString (id : TypeRefID) (s : string) : TypeRefID :=
  match s with
  | EmptyString => push_back id 0
  | _ =>
      let chunks := (String.length s / 4)%nat in
      let '(i, id) := addString_chunks s chunks 0%nat id in
      addString_tail s (String.length s - i)%nat i id
  end.



End ID.


(* ===================================================================== *)
(** ** Kinds and nodes *)
(* ===================================================================== *)

Module TypeRefKind.

(** Modelled from the spec: the enumerators of [TypeRefKind] are generated
    from TypeRefs.def, which is not part of the sources.  They are the
    kinds that the variant classes of the header pass to the [TypeRef]
    constructor; for the reference-storage family, generated from
    ReferenceStorage.def (not part of the sources either), they are the
    "closed small set, e.g. weak/unowned/unmanaged". *)
Inductive t : Type :=
| Builtin
| Nominal
| BoundGeneric
| Tuple
| Function
| ProtocolComposition
| Metatype
| ExistentialMetatype
| GenericTypeParameter
| DependentMember
| ForeignClass
| ObjCClass
| ObjCProtocol
| Opaque
| WeakStorage
| UnownedStorage
| UnmanagedStorage
| SILBox
| OpaqueArchetype.

#[global] Instance eq_dec : EqDecision t.
Proof. solve_decision. Defined.

Definition eqb (a b : t) : bool := bool_decide (a = b).

End TypeRefKind.

(** [remote::FunctionParam<const TypeRef *>]: label, type and the integer
    value of the parameter flags. *)
Record Param : Type := mkParam {
  getLabel : string;
  getType : nat;
  getFlags : Z
}.

#[global] Instance Param_eq_dec : EqDecision Param.
Proof. solve_decision. Defined.

(** [llvm::ArrayRef<const TypeRef *>] into a buffer: the offset of its
    first element from the start of the buffer, and its length. *)
Record ArrayRef : Type := mkArrayRef {
  view_data : nat;
  view_size : nat
}.

#[global] Instance ArrayRef_eq_dec : EqDecision ArrayRef.
Proof. solve_decision. Defined.

(** The members of each variant class. *)
Inductive TypeRefData : Type :=
| BuiltinData (MangledName : string)
| NominalData (MangledName : string) (Parent : nat)
| BoundGenericData (MangledName : string) (GenericParams : list nat)
    (Parent : nat)
| TupleData (Elements : list nat) (Labels : string)
| OpaqueArchetypeData (ID Description : string) (Ordinal : Z)
    (AllArgumentsBuf : list nat) (ArgumentLists : list ArrayRef)
| FunctionData (Parameters : list Param) (Result : nat) (Flags : Z)
| ProtocolCompositionData (Protocols : list nat) (Superclass : nat)
    (HasExplicitAnyObject : bool)
| MetatypeData (InstanceType : nat) (WasAbstract : bool)
| ExistentialMetatypeData (InstanceType : nat)
| GenericTypeParameterData (Depth Index : Z)
| DependentMemberData (Member : string) (Base : nat) (Protocol : string)
| ForeignClassData (Name : string)
| ObjCClassData (Name : string)
| ObjCProtocolData (Name : string)
| OpaqueData
| ReferenceStorageData (Type_ : nat)
| SILBoxData (BoxedType : nat).

#[global] Instance TypeRefData_eq_dec : EqDecision TypeRefData.
Proof. solve_decision. Defined.

(** [class TypeRef]: the kind tag, and the members of the subclass. *)
Record TypeRef : Type := mkTypeRef {
  Kind : TypeRefKind.t;
  Data : TypeRefData
}.

#[global] Instance TypeRef_eq_dec : EqDecision TypeRef.
Proof. solve_decision. Defined.

Definition getKind (TR : TypeRef) : TypeRefKind.t := Kind TR.

(* --------------------------------------------------------------------- *)
(** *** Constructors *)
(* --------------------------------------------------------------------- *)

Definition BuiltinTypeRef (MangledName : string) : TypeRef :=
  mkTypeRef TypeRefKind.Builtin (BuiltinData MangledName).

Definition NominalTypeRef (MangledName : string) (Parent : nat) : TypeRef :=
  mkTypeRef TypeRefKind.Nominal (NominalData MangledName Parent).

Definition BoundGenericTypeRef (MangledName : string)
    (GenericParams : list nat) (Parent : nat) : TypeRef :=
  mkTypeRef TypeRefKind.BoundGeneric
    (BoundGenericData MangledName GenericParams Parent).

Definition TupleTypeRef (Elements : list nat) (Labels : string) : TypeRef :=
  mkTypeRef TypeRefKind.Tuple (TupleData Elements Labels).

(** First loop of the OpaqueArchetypeTypeRef constructor: records the
    length of every argument list and appends its elements to
    [AllArgumentsBuf]. *)
Definition collect_arguments (argumentLists : list (list nat))
    : list nat * list nat :=
  fold_left
    (fun '(argumentListLengths, AllArgumentsBuf) argList =>
       (argumentListLengths ++ [length argList], AllArgumentsBuf ++ argList))
    argumentLists ([], []).

(** Second loop: one [ArrayRef(data, length)] per recorded length, with
    [data += length]; returns the final [data] too. *)
Definition publish_views (argumentListLengths : list nat)
    : list ArrayRef * nat :=
  fold_left
    (fun '(ArgumentLists, data) length =>
       (ArgumentLists ++ [mkArrayRef data length], data + length))
    argumentListLengths ([], 0).

Definition OpaqueArchetypeTypeRef (id description : string) (ordinal : Z)
    (argumentLists : list (list nat)) : TypeRef :=
  let '(argumentListLengths, AllArgumentsBuf) :=
    collect_arguments argumentLists in
  let '(ArgumentLists, _) := publish_views argumentListLengths in
  mkTypeRef TypeRefKind.OpaqueArchetype
    (OpaqueArchetypeData id description ordinal AllArgumentsBuf ArgumentLists).

(** The value tested by the [assert] that ends the constructor. *)
Definition OpaqueArchetype_assertion (argumentLists : list (list nat)) : bool :=
  let '(argumentListLengths, AllArgumentsBuf) :=
    collect_arguments argumentLists in
  let '(_, data) := publish_views argumentListLengths in
  bool_decide (data = 0 + length AllArgumentsBuf).

Definition FunctionTypeRef (Params : list Param) (Result : nat) (Flags : Z)
    : TypeRef :=
  mkTypeRef TypeRefKind.Function (FunctionData Params Result Flags).

Definition ProtocolCompositionTypeRef (Protocols : list nat)
    (Superclass : nat) (HasExplicitAnyObject : bool) : TypeRef :=
  mkTypeRef TypeRefKind.ProtocolComposition
    (ProtocolCompositionData Protocols Superclass HasExplicitAnyObject).

Definition MetatypeTypeRef (InstanceType : nat) (WasAbstract : bool)
    : TypeRef :=
  mkTypeRef TypeRefKind.Metatype (MetatypeData InstanceType WasAbstract).

Definition ExistentialMetatypeTypeRef (InstanceType : nat) : TypeRef :=
  mkTypeRef TypeRefKind.ExistentialMetatype
    (ExistentialMetatypeData InstanceType).

Definition GenericTypeParameterTypeRef (Depth Index : Z) : TypeRef :=
  mkTypeRef TypeRefKind.GenericTypeParameter
    (GenericTypeParameterData Depth Index).

Definition DependentMemberTypeRef (Member : string) (Base : nat)
    (Protocol : string) : TypeRef :=
  mkTypeRef TypeRefKind.DependentMember
    (DependentMemberData Member Base Protocol).

Definition ForeignClassTypeRef (Name : string) : TypeRef :=
  mkTypeRef TypeRefKind.ForeignClass (ForeignClassData Name).

Definition ObjCClassTypeRef (Name : string) : TypeRef :=
  mkTypeRef TypeRefKind.ObjCClass (ObjCClassData Name).

Definition ObjCProtocolTypeRef (Name : string) : TypeRef :=
  mkTypeRef TypeRefKind.ObjCProtocol (ObjCProtocolData Name).

Definition OpaqueTypeRef : TypeRef :=
  mkTypeRef TypeRefKind.Opaque OpaqueData.

(** The protected constructor shared by the reference-storage classes. *)
Definition ReferenceStorageTypeRef (Kind : TypeRefKind.t) (Type_ : nat)
    : TypeRef :=
  mkTypeRef Kind (ReferenceStorageData Type_).

Definition WeakStorageTypeRef (Type_ : nat) : TypeRef :=
  ReferenceStorageTypeRef TypeRefKind.WeakStorage Type_.

Definition UnownedStorageTypeRef (Type_ : nat) : TypeRef :=
  ReferenceStorageTypeRef TypeRefKind.UnownedStorage Type_.

Definition UnmanagedStorageTypeRef (Type_ : nat) : TypeRef :=
  ReferenceStorageTypeRef TypeRefKind.UnmanagedStorage Type_.

Definition SILBoxTypeRef (BoxedType : nat) : TypeRef :=
  mkTypeRef TypeRefKind.SILBox (SILBoxData BoxedType).

(* --------------------------------------------------------------------- *)
(** *** classof *)
(* --------------------------------------------------------------------- *)

(** [X::classof(TR)] for a final class [X] is
    [TR->getKind() == TypeRefKind::X]. *)
Definition classof (X : TypeRefKind.t) (TR : TypeRef) : bool :=
  TypeRefKind.eqb (getKind TR) X.

(** [ReferenceStorageTypeRef::classof]: a switch over the storage kinds. *)
Definition ReferenceStorage_classof (TR : TypeRef) : bool :=
  match getKind TR with
  | TypeRefKind.WeakStorage
  | TypeRefKind.UnownedStorage
  | TypeRefKind.UnmanagedStorage => true
  | _ => false
  end.

(* --------------------------------------------------------------------- *)
(** *** Accessors used below *)
(* --------------------------------------------------------------------- *)

(** The elements an [ArrayRef] designates in a buffer. *)
Definition view_elements (buf : list nat) (v : ArrayRef) : list nat :=
  take (view_size v) (drop (view_data v) buf).

(** [OpaqueArchetypeTypeRef::getArgumentLists]. *)
Definition getArgumentLists (TR : TypeRef) : list ArrayRef :=
  match Data TR with
  | OpaqueArchetypeData _ _ _ _ ArgumentLists => ArgumentLists
  | _ => []
  end.

Definition getAllArgumentsBuf (TR : TypeRef) : list nat :=
  match Data TR with
  | OpaqueArchetypeData _ _ _ AllArgumentsBuf _ => AllArgumentsBuf
  | _ => []
  end.

(** What a reader of [getArgumentLists] sees: every view resolved against
    the buffer owned by the node. *)
Definition readArgumentLists (TR : TypeRef) : list (list nat) :=
  map (view_elements (getAllArgumentsBuf TR)) (getArgumentLists TR).



(** The coordinate [(getDepth(), getIndex())] of a generic type parameter;
    [None] for the other variants. *)
Definition getDepthAndIndex (TR : TypeRef) : option (Z * Z) :=
  match Data TR with
  | GenericTypeParameterData Depth Index => Some (Depth, Index)
  | _ => None
  end.

Definition getElements (TR : TypeRef) : list nat :=
  match Data TR with
  | TupleData Elements _ => Elements
  | _ => []
  end.

Definition getLabelString (TR : TypeRef) : string :=
  match Data TR with
  | TupleData _ Labels => Labels
  | _ => EmptyString
  end.

(* --------------------------------------------------------------------- *)
(** *** TupleTypeRef::getLabels *)
(* --------------------------------------------------------------------- *)

(** [std::string::find(c, pos)]: the first position at or after [pos]
    holding [c]; [None] is [npos]. *)
Fixpoint find (s : string) (c : ascii) (pos : nat) : option nat :=
  match s with
  | EmptyString => None
  | String a s' =>
      match pos with
      | O => if Ascii.eqb a c then Some O else S <$> find s' c O
      | S pos' => S <$> find s' c pos'
      end
  end.

(** The [while (true)] loop of [getLabels]. Every iteration moves [Start]
    past a space of [Labels]; [fuel] bounds the number of iterations and
    [None] means that the bound was too small. *)
Fixpoint getLabels_loop (fuel : nat) (Labels : string) (Start : nat)
    (Vec : list string) : option (list string) :=
  match fuel with
  | O => None
  | S fuel' =>
      match find Labels " "%char Start with
      | None => Some Vec
      | Some End =>
          getLabels_loop fuel' Labels (End + 1)
            (Vec ++ [String.substring Start (End - Start) Labels])
      end
  end.

(** [for (N = Vec.size(); N < Elements.size(); ++N) Vec.push_back({})]. *)
Definition pad_labels (Vec : list string) (Elements : list nat)
    : list string :=
  Vec ++ replicate (length Elements - length Vec) EmptyString.

Definition getLabels (TR : TypeRef) : option (list string) :=
  Vec ← getLabels_loop (S (String.length (getLabelString TR)))
          (getLabelString TR) 0 [];
  Some (pad_labels Vec (getElements TR)).

(* ===================================================================== *)
(** ** Profiles *)
(* ===================================================================== *)

Module Profile.

Definition addPointers (id : TypeRefID) (ps : list nat) : TypeRefID :=
  fold_left ID.addPointer ps id.

Definition Builtin (MangledName : string) : TypeRefID :=
  ID.addString ID.empty MangledName.

(** [NominalTypeTrait::Profile]. *)
Definition Nominal (MangledName : string) (Parent : nat) : TypeRefID :=
  let id := ID.addPointer ID.empty Parent in
  ID.addString id MangledName.

Definition BoundGeneric (MangledName : string) (GenericParams : list nat)
    (Parent : nat) : TypeRefID :=
  let id := ID.addPointer ID.empty Parent in
  let id := ID.addString id MangledName in
  addPointers id GenericParams.

Definition Tuple (Elements : list nat) (Labels : string) : TypeRefID :=
  let id := addPointers ID.empty Elements in
  ID.addString id Labels.

Definition OpaqueArchetype (idString description : string) (ordinal : Z)
    (argumentLists : list (list nat)) : TypeRefID :=
  let id := ID.addString ID.empty idString in
  let id := ID.addInteger32 id ordinal in
  fold_left
    (fun id argList => addPointers (ID.addInteger32 id 0%Z) argList)
    argumentLists id.

Definition Function (Parameters : list Param) (Result : nat) (Flags : Z)
    : TypeRefID :=
  let id :=
    fold_left
      (fun id P =>
         let id := ID.addString id (getLabel P) in
         let id := ID.addPointer id (getType P) in
         ID.addInteger32 id (to_uint32 (getFlags P)))
      Parameters ID.empty in
  let id := ID.addPointer id Result in
  ID.addInteger64 id (to_uint64 Flags).

Definition ProtocolComposition (Protocols : list nat) (Superclass : nat)
    (HasExplicitAnyObject : bool) : TypeRefID :=
  let id := ID.addInteger32 ID.empty (Z.b2z HasExplicitAnyObject) in
  let id := addPointers id Protocols in
  ID.addPointer id Superclass.

Definition Metatype (InstanceType : nat) (WasAbstract : bool) : TypeRefID :=
  let id := ID.addPointer ID.empty InstanceType in
  ID.addInteger32 id (Z.b2z WasAbstract).

Definition ExistentialMetatype (InstanceType : nat) : TypeRefID :=
  ID.addPointer ID.empty InstanceType.

Definition GenericTypeParameter (Depth Index : Z) : TypeRefID :=
  let id := ID.addInteger32 ID.empty Depth in
  ID.addInteger32 id Index.

Definition DependentMember (Member : string) (Base : nat)
    (Protocol : string) : TypeRefID :=
  let id := ID.addString ID.empty Member in
  let id := ID.addPointer id Base in
  ID.addString id Protocol.

Definition ForeignClass (Name : string) : TypeRefID :=
  ID.addString ID.empty Name.

Definition ObjCClass (Name : string) : TypeRefID :=
  ID.addString ID.empty Name.

Definition ObjCProtocol (Name : string) : TypeRefID :=
  ID.addString ID.empty Name.

Definition Opaque : TypeRefID := ID.empty.

(** [ReferenceStorageTypeRef::Profile]. *)
Definition ReferenceStorage (Type_ : nat) : TypeRefID :=
  ID.addPointer ID.empty Type_.

Definition SILBox (BoxedType : nat) : TypeRefID :=
  ID.addPointer ID.empty BoxedType.

End Profile.

(* ===================================================================== *)
(** ** The uniquing allocator *)
(* ===================================================================== *)

(** Modelled from the spec: the allocator class (TypeRefBuilder) is not
    part of the sources, only its use by [FIND_OR_CREATE_TYPEREF] is.  It
    "owns all nodes it creates, keyed by kind-specific caches of
    IdentityKey -> node": a pool of nodes, and for every variant class
    [X] the cache [Xs] that the macro names [Allocator.TypeRefTy##s]. *)
Record TypeRefBuilder : Type := mkTypeRefBuilder {
  TypeRefPool : list TypeRef;
  Caches : TypeRefKind.t → gmap TypeRefID nat
}.

Definition emptyBuilder : TypeRefBuilder :=
  mkTypeRefBuilder [] (fun _ => ∅).

(** Modelled from the spec: [makeTypeRef<TypeRefTy>(args...)] constructs a
    new node owned by the allocator; the new node is distinct from every
    node that is alive. *)
Definition makeTypeRef (A : TypeRefBuilder) (TR : TypeRef)
    : TypeRefBuilder * nat :=
  (mkTypeRefBuilder (TypeRefPool A ++ [TR]) (Caches A),
   S (length (TypeRefPool A))).

(** Reading through a [const TypeRef *]. *)
Definition deref (A : TypeRefBuilder) (p : nat) : option TypeRef :=
  match p with
  | O => None
  | S i => TypeRefPool A !! i
  end.

(** [std::unordered_map::find]. *)
Definition cache_find (A : TypeRefBuilder) (TypeRefTy : TypeRefKind.t)
    (ID : TypeRefID) : option nat :=
  Caches A TypeRefTy !! ID.

(** [std::unordered_map::insert]: an existing entry is kept. *)
Definition cache_insert (A : TypeRefBuilder) (TypeRefTy : TypeRefKind.t)
    (ID : TypeRefID) (TR : nat) : TypeRefBuilder :=
  mkTypeRefBuilder (TypeRefPool A)
    (fun K =>
       if decide (K = TypeRefTy)
       then match Caches A K !! ID with
            | Some _ => Caches A K
            | None => <[ID := TR]> (Caches A K)
            end
       else Caches A K).

(** The macro [FIND_OR_CREATE_TYPEREF(Allocator, TypeRefTy, args...)]:
    [ID] is [Profile(args...)], and [node] is what [TypeRefTy(args...)]
    constructs. *)
Definition FIND_OR_CREATE_TYPEREF (Allocator : TypeRefBuilder)
    (TypeRefTy : TypeRefKind.t) (ID : TypeRefID) (node : TypeRef)
    : TypeRefBuilder * nat :=
  match cache_find Allocator TypeRefTy ID with
  | Some Entry => (Allocator, Entry)
  | None =>
      let '(Allocator, TR) := makeTypeRef Allocator node in
      (cache_insert Allocator TypeRefTy ID TR, TR)
  end.

(** The arguments of the [create] function of each variant class. *)
Inductive CreateArgs : Type :=
| BuiltinArgs (MangledName : string)
| NominalArgs (MangledName : string) (Parent : nat)
| BoundGenericArgs (MangledName : string) (GenericParams : list nat)
    (Parent : nat)
| TupleArgs (Elements : list nat) (Labels : string)
| OpaqueArchetypeArgs (id description : string) (ordinal : Z)
    (arguments : list (list nat))
| FunctionArgs (Params : list Param) (Result : nat) (Flags : Z)
| ProtocolCompositionArgs (Protocols : list nat) (Superclass : nat)
    (HasExplicitAnyObject : bool)
| MetatypeArgs (InstanceType : nat) (WasAbstract : bool)
| ExistentialMetatypeArgs (InstanceType : nat)
| GenericTypeParameterArgs (Depth Index : Z)
| DependentMemberArgs (Member : string) (Base : nat) (Protocol : string)
| ForeignClassArgs (Name : string)
| ObjCClassArgs (Name : string)
| ObjCProtocolArgs (Name : string)
| WeakStorageArgs (Type_ : nat)
| UnownedStorageArgs (Type_ : nat)
| UnmanagedStorageArgs (Type_ : nat)
| SILBoxArgs (BoxedType : nat).

#[global] Instance CreateArgs_eq_dec : EqDecision CreateArgs.
Proof. solve_decision. Defined.

(** The class whose [create] is called, named by its kind. *)
Definition TypeRefTy (args : CreateArgs) : TypeRefKind.t :=
  match args with
  | BuiltinArgs _ => TypeRefKind.Builtin
  | NominalArgs _ _ => TypeRefKind.Nominal
  | BoundGenericArgs _ _ _ => TypeRefKind.BoundGeneric
  | TupleArgs _ _ => TypeRefKind.Tuple
  | OpaqueArchetypeArgs _ _ _ _ => TypeRefKind.OpaqueArchetype
  | FunctionArgs _ _ _ => TypeRefKind.Function
  | ProtocolCompositionArgs _ _ _ => TypeRefKind.ProtocolComposition
  | MetatypeArgs _ _ => TypeRefKind.Metatype
  | ExistentialMetatypeArgs _ => TypeRefKind.ExistentialMetatype
  | GenericTypeParameterArgs _ _ => TypeRefKind.GenericTypeParameter
  | DependentMemberArgs _ _ _ => TypeRefKind.DependentMember
  | ForeignClassArgs _ => TypeRefKind.ForeignClass
  | ObjCClassArgs _ => TypeRefKind.ObjCClass
  | ObjCProtocolArgs _ => TypeRefKind.ObjCProtocol
  | WeakStorageArgs _ => TypeRefKind.WeakStorage
  | UnownedStorageArgs _ => TypeRefKind.UnownedStorage
  | UnmanagedStorageArgs _ => TypeRefKind.UnmanagedStorage
  | SILBoxArgs _ => TypeRefKind.SILBox
  end.

(** [Profile(args...)] as each [create] calls it. *)
Definition profile (args : CreateArgs) : TypeRefID :=
  match args with
  | BuiltinArgs n => Profile.Builtin n
  | NominalArgs n p => Profile.Nominal n p
  | BoundGenericArgs n gs p => Profile.BoundGeneric n gs p
  | TupleArgs es ls => Profile.Tuple es ls
  | OpaqueArchetypeArgs i d o a => Profile.OpaqueArchetype i d o a
  | FunctionArgs ps r f => Profile.Function ps r f
  | ProtocolCompositionArgs ps s h => Profile.ProtocolComposition ps s h
  | MetatypeArgs i w => Profile.Metatype i w
  | ExistentialMetatypeArgs i => Profile.ExistentialMetatype i
  | GenericTypeParameterArgs d i => Profile.GenericTypeParameter d i
  | DependentMemberArgs m b p => Profile.DependentMember m b p
  | ForeignClassArgs n => Profile.ForeignClass n
  | ObjCClassArgs n => Profile.ObjCClass n
  | ObjCProtocolArgs n => Profile.ObjCProtocol n
  | WeakStorageArgs t => Profile.ReferenceStorage t
  | UnownedStorageArgs t => Profile.ReferenceStorage t
  | UnmanagedStorageArgs t => Profile.ReferenceStorage t
  | SILBoxArgs b => Profile.SILBox b
  end.

(** [TypeRefTy(args...)]: the constructor each [create] reaches through
    [makeTypeRef]. *)
Definition construct (args : CreateArgs) : TypeRef :=
  match args with
  | BuiltinArgs n => BuiltinTypeRef n
  | NominalArgs n p => NominalTypeRef n p
  | BoundGenericArgs n gs p => BoundGenericTypeRef n gs p
  | TupleArgs es ls => TupleTypeRef es ls
  | OpaqueArchetypeArgs i d o a => OpaqueArchetypeTypeRef i d o a
  | FunctionArgs ps r f => FunctionTypeRef ps r f
  | ProtocolCompositionArgs ps s h => ProtocolCompositionTypeRef ps s h
  | MetatypeArgs i w => MetatypeTypeRef i w
  | ExistentialMetatypeArgs i => ExistentialMetatypeTypeRef i
  | GenericTypeParameterArgs d i => GenericTypeParameterTypeRef d i
  | DependentMemberArgs m b p => DependentMemberTypeRef m b p
  | ForeignClassArgs n => ForeignClassTypeRef n
  | ObjCClassArgs n => ObjCClassTypeRef n
  | ObjCProtocolArgs n => ObjCProtocolTypeRef n
  | WeakStorageArgs t => WeakStorageTypeRef t
  | UnownedStorageArgs t => UnownedStorageTypeRef t
  | UnmanagedStorageArgs t => UnmanagedStorageTypeRef t
  | SILBoxArgs b => SILBoxTypeRef b
  end.

(** [X::create(A, args...)] for every variant class [X]. *)
Definition create (A : TypeRefBuilder) (args : CreateArgs)
    : TypeRefBuilder * nat :=
  FIND_OR_CREATE_TYPEREF A (TypeRefTy args) (profile args) (construct args).

(** A run of [create] calls on one allocator. *)
Fixpoint create_all (A : TypeRefBuilder) (calls : list CreateArgs)
    : TypeRefBuilder :=
  match calls with
  | [] => A
  | args :: calls' => create_all (create A args).1 calls'
  end.

(* ===================================================================== *)
(** ** TypeRefVisitor *)
(* ===================================================================== *)

(** Modelled from the spec: the X-macro file TypeRefs.def is not part of
    the sources.  It lists "a closed enumeration of kinds", one
    [TYPEREF(Id, Parent)] entry per variant class; both the enumeration
    [TypeRefKind] and the cases of the switch in [visit] are generated
    from it, in the same order. *)
Definition TypeRefs_def : list TypeRefKind.t :=
  [ TypeRefKind.Builtin; TypeRefKind.Nominal; TypeRefKind.BoundGeneric;
    TypeRefKind.Tuple; TypeRefKind.Function;
    TypeRefKind.ProtocolComposition; TypeRefKind.Metatype;
    TypeRefKind.ExistentialMetatype; TypeRefKind.GenericTypeParameter;
    TypeRefKind.DependentMember; TypeRefKind.ForeignClass;
    TypeRefKind.ObjCClass; TypeRefKind.ObjCProtocol; TypeRefKind.Opaque;
    TypeRefKind.WeakStorage; TypeRefKind.UnownedStorage;
    TypeRefKind.UnmanagedStorage; TypeRefKind.SILBox;
    TypeRefKind.OpaqueArchetype ].

(** The position of [Id] in a list of enumerators, counted from [n]. *)
Fixpoint enumerator_position (Id : TypeRefKind.t) (defs : list TypeRefKind.t)
    (n : Z) : Z :=
  match defs with
  | [] => n
  | Id' :: defs' =>
      if TypeRefKind.eqb Id' Id then n
      else enumerator_position Id defs' (n + 1)
  end.

(** The integer value of an enumerator of [enum class TypeRefKind]: the
    enumerators carry no initialiser, so they count from zero. *)
Definition enum_value (Id : TypeRefKind.t) : Z :=
  enumerator_position Id TypeRefs_def 0.

(** What a call of [visit] ends in. *)
Inductive Dispatch : Type :=
| Handler (Id : TypeRefKind.t)
| swift_runtime_unreachable (msg : string).

(** The [case TypeRefKind::Id:] labels, tried against the stored tag. *)
Fixpoint switch_cases (cases : list TypeRefKind.t) (tag : Z)
    : option TypeRefKind.t :=
  match cases with
  | [] => None
  | Id :: cases' =>
      if (tag =? enum_value Id)%Z then Some Id else switch_cases cases' tag
  end.

(** [TypeRefVisitor::visit] on the stored kind tag: [Handler Id] stands for
    the call of [visit##Id##TypeRef]. *)
Definition visit_tag (tag : Z) : Dispatch :=
  match switch_cases TypeRefs_def tag with
  | Some Id => Handler Id
  | None => swift_runtime_unreachable "Unhandled TypeRefKind in switch."
  end.

Definition visit (typeRef : TypeRef) : Dispatch :=
  visit_tag (enum_value (getKind typeRef)).

(* ===================================================================== *)
(** ** Children of a node *)
(* ===================================================================== *)

(** The constructor arguments of a node, read back through its accessors.
    [OpaqueTypeRef] has a private constructor and no [create]. *)
Definition getArgs (TR : TypeRef) : option CreateArgs :=
  match Data TR with
  | BuiltinData n => Some (BuiltinArgs n)
  | NominalData n p => Some (NominalArgs n p)
  | BoundGenericData n gs p => Some (BoundGenericArgs n gs p)
  | TupleData es ls => Some (TupleArgs es ls)
  | OpaqueArchetypeData i d o _ _ =>
      Some (OpaqueArchetypeArgs i d o (readArgumentLists TR))
  | FunctionData ps r f => Some (FunctionArgs ps r f)
  | ProtocolCompositionData ps s h => Some (ProtocolCompositionArgs ps s h)
  | MetatypeData i w => Some (MetatypeArgs i w)
  | ExistentialMetatypeData i => Some (ExistentialMetatypeArgs i)
  | GenericTypeParameterData d i => Some (GenericTypeParameterArgs d i)
  | DependentMemberData m b p => Some (DependentMemberArgs m b p)
  | ForeignClassData n => Some (ForeignClassArgs n)
  | ObjCClassData n => Some (ObjCClassArgs n)
  | ObjCProtocolData n => Some (ObjCProtocolArgs n)
  | OpaqueData => None
  | ReferenceStorageData t =>
      match Kind TR with
      | TypeRefKind.WeakStorage => Some (WeakStorageArgs t)
      | TypeRefKind.UnownedStorage => Some (UnownedStorageArgs t)
      | TypeRefKind.UnmanagedStorage => Some (UnmanagedStorageArgs t)
      | _ => None
      end
  | SILBoxData b => Some (SILBoxArgs b)
  end.

(** The child references among the arguments, in argument order. *)
Definition children (args : CreateArgs) : list nat :=
  match args with
  | NominalArgs _ p => [p]
  | BoundGenericArgs _ gs p => gs ++ [p]
  | TupleArgs es _ => es
  | OpaqueArchetypeArgs _ _ _ a => concat a
  | FunctionArgs ps r _ => map getType ps ++ [r]
  | ProtocolCompositionArgs ps s _ => ps ++ [s]
  | MetatypeArgs i _ => [i]
  | ExistentialMetatypeArgs i => [i]
  | DependentMemberArgs _ b _ => [b]
  | WeakStorageArgs t | UnownedStorageArgs t | UnmanagedStorageArgs t => [t]
  | SILBoxArgs b => [b]
  | _ => []
  end.

Definition children_of (TR : TypeRef) : list nat :=
  from_option children [] (getArgs TR).

(** The arguments with every child reference replaced through [g]. *)
Definition map_children (g : nat → nat) (args : CreateArgs) : CreateArgs :=
  match args with
  | NominalArgs n p => NominalArgs n (g p)
  | BoundGenericArgs n gs p => BoundGenericArgs n (map g gs) (g p)
  | TupleArgs es ls => TupleArgs (map g es) ls
  | OpaqueArchetypeArgs i d o a => OpaqueArchetypeArgs i d o (map (map g) a)
  | FunctionArgs ps r f =>
      FunctionArgs
        (map (fun P => mkParam (getLabel P) (g (getType P)) (getFlags P)) ps)
        (g r) f
  | ProtocolCompositionArgs ps s h =>
      ProtocolCompositionArgs (map g ps) (g s) h
  | MetatypeArgs i w => MetatypeArgs (g i) w
  | ExistentialMetatypeArgs i => ExistentialMetatypeArgs (g i)
  | DependentMemberArgs m b p => DependentMemberArgs m (g b) p
  | WeakStorageArgs t => WeakStorageArgs (g t)
  | UnownedStorageArgs t => UnownedStorageArgs (g t)
  | UnmanagedStorageArgs t => UnmanagedStorageArgs (g t)
  | SILBoxArgs b => SILBoxArgs (g b)
  | other => other
  end.

(* ===================================================================== *)
(** ** Substitution and unification *)
(* ===================================================================== *)

(** [GenericArgumentMap]: [DenseMap<DepthAndIndex, const TypeRef *>]. *)
Abbreviation GenericArgumentMap := (gmap (Z * Z) nat).

Section Traverse.
Context {St : Type} (f : St → nat → option (St * nat)).

(** Visits the references of a list from left to right, threading the
    state. *)
Fixpoint traverse_list (s : St) (l : list nat) : option (St * list nat) :=
  match l with
  | [] => Some (s, [])
  | p :: l' =>
      '(s, p') ← f s p;
      '(s, l'') ← traverse_list s l';
      Some (s, p' :: l'')
  end.

Fixpoint traverse_lists (s : St) (ll : list (list nat))
    : option (St * list (list nat)) :=
  match ll with
  | [] => Some (s, [])
  | l :: ll' =>
      '(s, l') ← traverse_list s l;
      '(s, ll'') ← traverse_lists s ll';
      Some (s, l' :: ll'')
  end.

Fixpoint traverse_params (s : St) (ps : list Param)
    : option (St * list Param) :=
  match ps with
  | [] => Some (s, [])
  | P :: ps' =>
      '(s, t) ← f s (getType P);
      '(s, ps'') ← traverse_params s ps';
      Some (s, mkParam (getLabel P) t (getFlags P) :: ps'')
  end.

(** Every child reference of the arguments, in argument order. *)
Definition traverse_children (s : St) (args : CreateArgs)
    : option (St * CreateArgs) :=
  match args with
  | NominalArgs n p =>
      '(s, p) ← f s p; Some (s, NominalArgs n p)
  | BoundGenericArgs n gs p =>
      '(s, gs) ← traverse_list s gs;
      '(s, p) ← f s p;
      Some (s, BoundGenericArgs n gs p)
  | TupleArgs es ls =>
      '(s, es) ← traverse_list s es; Some (s, TupleArgs es ls)
  | OpaqueArchetypeArgs i d o a =>
      '(s, a) ← traverse_lists s a; Some (s, OpaqueArchetypeArgs i d o a)
  | FunctionArgs ps r fl =>
      '(s, ps) ← traverse_params s ps;
      '(s, r) ← f s r;
      Some (s, FunctionArgs ps r fl)
  | ProtocolCompositionArgs ps sc h =>
      '(s, ps) ← traverse_list s ps;
      '(s, sc) ← f s sc;
      Some (s, ProtocolCompositionArgs ps sc h)
  | MetatypeArgs i w =>
      '(s, i) ← f s i; Some (s, MetatypeArgs i w)
  | ExistentialMetatypeArgs i =>
      '(s, i) ← f s i; Some (s, ExistentialMetatypeArgs i)
  | DependentMemberArgs m b p =>
      '(s, b) ← f s b; Some (s, DependentMemberArgs m b p)
  | WeakStorageArgs t =>
      '(s, t) ← f s t; Some (s, WeakStorageArgs t)
  | UnownedStorageArgs t =>
      '(s, t) ← f s t; Some (s, UnownedStorageArgs t)
  | UnmanagedStorageArgs t =>
      '(s, t) ← f s t; Some (s, UnmanagedStorageArgs t)
  | SILBoxArgs b =>
      '(s, b) ← f s b; Some (s, SILBoxArgs b)
  | other => Some (s, other)
  end.

End Traverse.

(** Modelled from the spec: TypeRef::subst is declared in the header and
    defined in a source file that is not part of the sources.  "Every
    reachable GenericTypeParameter node whose coordinate is a key in subs
    is replaced by its bound reference; all other nodes are rebuilt with
    substituted children through the allocator", "children are substituted
    before the parent node is rebuilt".  An absent (null) optional child
    stays absent, and the singleton Opaque node, which no [create] builds,
    is returned as it is.  [fuel] bounds the depth of the walk; [None]
    means that it was too small. *)
Fixpoint subst_walk (fuel : nat) (Subs : GenericArgumentMap)
    (Builder : TypeRefBuilder) (T : nat) : option (TypeRefBuilder * nat) :=
  match fuel with
  | O => None
  | S fuel' =>
      match deref Builder T with
      | None => Some (Builder, T)
      | Some TR =>
          match getDepthAndIndex TR ≫= (Subs !!.) with
          | Some replacement => Some (Builder, replacement)
          | None =>
              match getArgs TR with
              | None => Some (Builder, T)
              | Some args =>
                  '(Builder, args) ←
                    traverse_children (subst_walk fuel' Subs) Builder args;
                  Some (create Builder args)
              end
          end
      end
  end.

(** A child is always created before its parent, so the depth of a tree
    is at most the number of nodes of the pool. *)
Definition subst (Builder : TypeRefBuilder) (Subs : GenericArgumentMap)
    (T : nat) : option (TypeRefBuilder * nat) :=
  subst_walk (S (length (TypeRefPool Builder))) Subs Builder T.

(** The lock-step walk over two lists of children: stops at the first
    failure; lists of different lengths are an arity mismatch. *)
Fixpoint derive_children
    (f : GenericArgumentMap → nat → nat → option (bool * GenericArgumentMap))
    (Subs : GenericArgumentMap) (os ss : list nat)
    : option (bool * GenericArgumentMap) :=
  match os, ss with
  | [], [] => Some (true, Subs)
  | o :: os', s :: ss' =>
      match f Subs o s with
      | None => None
      | Some (true, Subs) => derive_children f Subs os' ss'
      | Some (false, Subs) => Some (false, Subs)
      end
  | _, _ => Some (false, Subs)
  end.

(** The kind and the fields of a node that are not child references. *)
Definition shape (args : CreateArgs) : CreateArgs :=
  map_children (fun _ => O) args.

(** Modelled from the spec: TypeRef::deriveSubstitutions is declared in
    the header and defined in a source file that is not part of the
    sources.  "If the current Orig node is a GenericTypeParameter at
    coordinate c: bind c -> Subst-subtree.  If c is already bound to a
    different node, the call fails.  Otherwise Orig and Subst must have the
    same variant kind and the same non-generic identifying fields; children
    are compared pairwise and recursively.  Builtin/leaf nodes must match
    by exact structural equality (a reference comparison)."  The result is
    the success flag with the map as the call leaves it; [None] means that
    [fuel], which bounds the depth of the walk, was too small. *)
Fixpoint deriveSubstitutions_walk (fuel : nat) (A : TypeRefBuilder)
    (Subs : GenericArgumentMap) (OrigTR SubstTR : nat)
    : option (bool * GenericArgumentMap) :=
  match fuel with
  | O => None
  | S fuel' =>
      match deref A OrigTR with
      | None => Some (bool_decide (OrigTR = SubstTR), Subs)
      | Some Orig =>
          match getDepthAndIndex Orig with
          | Some c =>
              match Subs !! c with
              | None => Some (true, <[c := SubstTR]> Subs)
              | Some bound => Some (bool_decide (bound = SubstTR), Subs)
              end
          | None =>
              match children_of Orig with
              | [] => Some (bool_decide (OrigTR = SubstTR), Subs)
              | os =>
                  match deref A SubstTR with
                  | None => Some (false, Subs)
                  | Some Subst =>
                      if decide (shape <$> getArgs Orig
                                 = shape <$> getArgs Subst)
                      then derive_children
                             (deriveSubstitutions_walk fuel' A)
                             Subs os (children_of Subst)
                      else Some (false, Subs)
                  end
              end
          end
      end
  end.

Definition deriveSubstitutions (A : TypeRefBuilder)
    (Subs : GenericArgumentMap) (OrigTR SubstTR : nat)
    : option (bool * GenericArgumentMap) :=
  deriveSubstitutions_walk (S (length (TypeRefPool A))) A Subs OrigTR SubstTR.

(* ===================================================================== *)
(** ** The words of a string, as the specification describes them *)
(* ===================================================================== *)

(** Four characters packed into one word, lowest byte first. *)
Definition pack4 (a b c d : ascii) : Z :=
  add32 (add32 (add32 (uint32_of_char a) (shl32 (uint32_of_char b) 8))
               (shl32 (uint32_of_char c) 16))
        (shl32 (uint32_of_char d) 24).

(** After the specification: "strings packed 4 bytes per word with a tail
    remainder": one word for every full group of four characters, then one
    word for each of the at most three characters left. *)
Fixpoint words_of_string (s : string) : list Z :=
  match s with
  | String a (String b (String c (String d rest))) =>
      pack4 a b c d :: words_of_string rest
  | _ => map uint32_of_char (list_ascii_of_string s)
  end.

(** The two loops of [addString], without the test for the empty string. *)
Definition addString_loops (id : TypeRefID) (s : string) : TypeRefID :=
  let '(i, id) := ID.addString_chunks s (String.length s / 4) 0 id in
  ID.addString_tail s (String.length s - i) i id.

(** The views over a buffer that starts at offset [data], for the given
    lengths. *)
Fixpoint views_from (data : nat) (lengths : list nat) : list ArrayRef :=
  match lengths with
  | [] => []
  | n :: lengths' => mkArrayRef data n :: views_from (data + n) lengths'
  end.

(** A label holds no space. *)
Fixpoint no_space (s : string) : bool :=
  match s with
  | EmptyString => true
  | String c s' => negb (Ascii.eqb c " ") && no_space s'
  end.

(** After the specification of the label string: every label followed by
    the space that terminates it. *)
Fixpoint terminated (labels : list string) : string :=
  match labels with
  | [] => EmptyString
  | l :: labels' => String.append l (String " " (terminated labels'))
  end.

(* ===================================================================== *)
(** ** Well-formed allocators and walks *)
(* ===================================================================== *)

(** What [FIND_OR_CREATE_TYPEREF] maintains: a cache entry designates a
    node built from arguments with that profile, by the class of that
    cache; and every node of the pool is entered in the cache of its
    class under the profile of its arguments. *)
Record builder_inv (A : TypeRefBuilder) : Prop := {
  cache_sound :
    ∀ K ID p, cache_find A K ID = Some p →
      ∃ args, deref A p = Some (construct args)
              ∧ TypeRefTy args = K ∧ profile args = ID;
  pool_registered :
    ∀ p TR, deref A p = Some TR →
      ∃ args, TR = construct args
              ∧ cache_find A (TypeRefTy args) (profile args) = Some p
}.

(** The child references passed to [create] are null or designate nodes
    of the allocator. *)
Definition valid_args (A : TypeRefBuilder) (args : CreateArgs) : Prop :=
  ∀ c, c ∈ children args → c ≤ length (TypeRefPool A).

(** A run of [create] calls, each on valid arguments. *)
Fixpoint valid_calls (A : TypeRefBuilder) (calls : list CreateArgs) : Prop :=
  match calls with
  | [] => True
  | args :: calls' => valid_args A args ∧ valid_calls (create A args).1 calls'
  end.

(** Every child was created before its parent. *)
Definition children_before (A : TypeRefBuilder) : Prop :=
  ∀ p TR c, deref A p = Some TR → c ∈ children_of TR → c < p.

(** [Reaches A T p]: the node [p] is [T] or a descendant of [T]. *)
Inductive Reaches (A : TypeRefBuilder) : nat → nat → Prop :=
| Reaches_here T : Reaches A T T
| Reaches_child T TR c p :
    deref A T = Some TR → c ∈ children_of TR → Reaches A c p →
    Reaches A T p.

(** No GenericTypeParameter node is reachable from [T]. *)
Definition no_GenericTypeParameter (A : TypeRefBuilder) (T : nat) : Prop :=
  ∀ p TR, Reaches A T p → deref A p = Some TR →
          getKind TR ≠ TypeRefKind.GenericTypeParameter.

(** [Aligned A O S o s]: the lock-step walk of [O] and [S] pairs the node
    [o] of the pattern with the node [s] of the instance: it descends
    through pattern nodes that are not generic parameters, into children
    at the same position of two nodes of the same shape. *)
Inductive Aligned (A : TypeRefBuilder) : nat → nat → nat → nat → Prop :=
| Aligned_here O S : Aligned A O S O S
| Aligned_child O S Orig Subst i o s o' s' :
    deref A O = Some Orig → getDepthAndIndex Orig = None →
    deref A S = Some Subst →
    shape <$> getArgs Orig = shape <$> getArgs Subst →
    children_of Orig !! i = Some o → children_of Subst !! i = Some s →
    Aligned A o s o' s' →
    Aligned A O S o' s'.

(** The pattern node [o] is a generic parameter at coordinate [c]. *)
Definition parameter_at (A : TypeRefBuilder) (o : nat) (c : Z * Z) : Prop :=
  ∃ TR, deref A o = Some TR ∧ getDepthAndIndex TR = Some c.

(** The map [M] binds every generic parameter that the lock-step walk of
    [o] and [s] meets to the node aligned with it. *)
Definition bound_by (A : TypeRefBuilder) (o s : nat)
    (M : GenericArgumentMap) : Prop :=
  ∀ o' s' c, Aligned A o s o' s' → parameter_at A o' c → M !! c = Some s'.

(** The nodes of the examples: GenericTypeParameter(0,0) is node 1,
    Nominal("Int") node 2, Nominal("String") node 3, the tuple of twice
    the parameter node 4, and the tuple of Int and String node 5. *)
Definition example_calls : list CreateArgs :=
  [ GenericTypeParameterArgs 0 0;
    NominalArgs "Int" 0;
    NominalArgs "String" 0;
    TupleArgs [1; 1] "";
    TupleArgs [2; 3] "" ].

Definition example_builder : TypeRefBuilder :=
  create_all emptyBuilder example_calls.

(* ===================================================================== *)
(** ** Vocabulary of the further properties *)
(* ===================================================================== *)

(** The cache and the key under which [create] looks its arguments up. *)
Definition cache_key (args : CreateArgs) : TypeRefKind.t * TypeRefID :=
  (TypeRefTy args, profile args).

#[global] Instance TypeRefKind_countable : Countable TypeRefKind.t.
Proof.
  refine (inj_countable' (fun K => Z.to_nat (enum_value K))
            (fun n => nth n TypeRefs_def TypeRefKind.Builtin) _).
  intros K. destruct K; reflexivity.
Defined.

(** The two words [addPointer] appends for a pointer. *)
Definition pointer_words (Pointer : nat) : list Z :=
  [to_uint32 (Z.of_nat Pointer); to_uint32 (Z.shiftr (Z.of_nat Pointer) 32)].

(** [addPointer] with the size in bytes of a pointer, a constant of the
    target, as a parameter: [Raw[1]] is appended when it is more than 4. *)
Definition addPointer_sized (size : Z) (id : TypeRefID) (Pointer : nat)
    : TypeRefID :=
  let raw := Z.of_nat Pointer in
  let id := ID.push_back id (to_uint32 raw) in
  if (4 <? size)%Z
  then ID.push_back id (to_uint32 (Z.shiftr raw 32))
  else id.

(** The words that [OpaqueArchetypeTypeRef::Profile] appends for the
    argument lists: for every list the word 0, then the words of its
    pointers. *)
Definition argument_lists_words (argumentLists : list (list nat)) : list Z :=
  concat (map (fun argList => 0%Z :: concat (map pointer_words argList))
              argumentLists).

(** A pointer value fits the 8 bytes of a pointer. *)
Definition pointer_ok (Pointer : nat) : Prop :=
  (Z.of_nat Pointer < 2 ^ 64)%Z.


(** A character of a mangled name: ASCII and not NUL. *)
Definition plain_char (c : ascii) : bool :=
  (0 <? byte_of_char c)%Z && (byte_of_char c <? 128)%Z.

Fixpoint plain_string (s : string) : bool :=
  match s with
  | EmptyString => true
  | String c s' => plain_char c && plain_string s'
  end.

(** The words [addString] appends for a string. *)
Definition string_words (s : string) : list Z :=
  match s with
  | EmptyString => [0%Z]
  | _ => words_of_string s
  end.

(** Reading the words of a plain string back, used to show that they
    determine the string: the word 0 stands for the empty string, a word
    below 128 for one character, any other word for four characters,
    lowest byte first. *)
Definition char_of_word (w : Z) : ascii :=
  ascii_of_N (Z.to_N (w mod 256)).

Definition decode_word (w : Z) : string :=
  if (w =? 0)%Z then EmptyString
  else if (w <? 128)%Z then String (char_of_word w) EmptyString
  else String (char_of_word w)
         (String (char_of_word (w / 2 ^ 8))
            (String (char_of_word (w / 2 ^ 16))
               (String (char_of_word (w / 2 ^ 24)) EmptyString))).

Fixpoint decode_words (ws : list Z) : string :=
  match ws with
  | [] => EmptyString
  | w :: ws' => String.append (decode_word w) (decode_words ws')
  end.

(** The arguments whose profile holds nothing but integers, pointers that
    fit a pointer, a boolean, or one plain string after a fixed number of
    words. *)
Definition plainly_profiled (args : CreateArgs) : Prop :=
  match args with
  | BuiltinArgs n | ForeignClassArgs n | ObjCClassArgs n
  | ObjCProtocolArgs n => plain_string n = true
  | NominalArgs n p => plain_string n = true ∧ pointer_ok p
  | ProtocolCompositionArgs ps s _ => Forall pointer_ok ps ∧ pointer_ok s
  | MetatypeArgs t _ | ExistentialMetatypeArgs t | WeakStorageArgs t
  | UnownedStorageArgs t | UnmanagedStorageArgs t
  | SILBoxArgs t => pointer_ok t
  | GenericTypeParameterArgs _ _ => True
  | _ => False
  end.

(** The number of spaces of a label string. *)
Fixpoint count_spaces (s : string) : nat :=
  match s with
  | EmptyString => 0
  | String c s' =>
      (if Ascii.eqb c " " then 1 else 0) + count_spaces s'
  end.

(* ===================================================================== *)
(** * Properties *)
(* ===================================================================== *)

(* --------------------------------------------------------------------- *)
(** ** TypeRefID *)
(* --------------------------------------------------------------------- *)

Lemma string_at_S a s i : string_at (String a s) (S i) = string_at s i.
Proof. reflexivity. Qed.

Lemma chunk_entry_shift a b c d s i :
  ID.chunk_entry (String a (String b (String c (String d s)))) (i + 4)
  = ID.chunk_entry s i.
Proof.
  unfold ID.chunk_entry.
  replace (i + 4) with (S (S (S (S i)))) by lia.
  replace (S (S (S (S i))) + 1) with (S (S (S (S (i + 1))))) by lia.
  replace (S (S (S (S i))) + 2) with (S (S (S (S (i + 2))))) by lia.
  replace (S (S (S (S i))) + 3) with (S (S (S (S (i + 3))))) by lia.
  now rewrite !string_at_S.
Qed.

Lemma addString_chunks_shift a b c d s n i id :
  ID.addString_chunks (String a (String b (String c (String d s))))
    n (i + 4) id
  = let '(j, id') := ID.addString_chunks s n i id in (j + 4, id').
Proof.
  revert i id. induction n as [|n IH]; intros i id; simpl; [reflexivity|].
  rewrite IH, chunk_entry_shift. reflexivity.
Qed.

Lemma addString_tail_shift a s n i id :
  ID.addString_tail (String a s) n (S i) id = ID.addString_tail s n i id.
Proof.
  revert i id. induction n as [|n IH]; intros i id; simpl; [reflexivity|].
  rewrite <- IH. reflexivity.
Qed.

Lemma addString_tail_all s id :
  Bits (ID.addString_tail s (String.length s) 0 id)
  = Bits id ++ map uint32_of_char (list_ascii_of_string s).
Proof.
  revert id. induction s as [|a s IH]; intros id; simpl.
  - now rewrite app_nil_r.
  - rewrite addString_tail_shift, IH. simpl.
    rewrite <- app_assoc. reflexivity.
Qed.

Lemma chunks_index s n i id :
  (ID.addString_chunks s n i id).1 = i + 4 * n.
Proof.
  revert i id. induction n as [|n IH]; intros i id; simpl; [lia|].
  rewrite IH. lia.
Qed.

Lemma addString_loops_step a b c d s id :
  addString_loops id (String a (String b (String c (String d s))))
  = addString_loops (ID.push_back id (pack4 a b c d)) s.
Proof.
  unfold addString_loops.
  set (s4 := String a (String b (String c (String d s)))).
  assert (Hlen : String.length s4 = String.length s + 4)
    by (subst s4; simpl; lia).
  rewrite Hlen.
  replace ((String.length s + 4) / 4) with (S (String.length s / 4)).
  2:{ replace (String.length s + 4) with (String.length s + 1 * 4) by lia.
      rewrite Nat.div_add by lia. lia. }
  cbn [ID.addString_chunks].
  change (0 + 4) with (0 + 4)%nat.
  subst s4. rewrite addString_chunks_shift.
  change (ID.chunk_entry _ 0) with (pack4 a b c d).
  destruct (ID.addString_chunks s (String.length s / 4) 0
              (ID.push_back id (pack4 a b c d))) as [j id'] eqn:E.
  replace (String.length s + 4 - (j + 4)) with (String.length s - j) by lia.
  replace (j + 4) with (S (S (S (S j)))) by lia.
  now rewrite !addString_tail_shift.
Qed.

Lemma addString_loops_words n s id :
  String.length s ≤ n →
  Bits (addString_loops id s) = Bits id ++ words_of_string s.
Proof.
  revert s id. induction n as [|n IH]; intros s id Hn.
  - destruct s; simpl in Hn; [|lia]. simpl. now rewrite app_nil_r.
  - destruct s as [|a [|b [|c [|d s]]]].
    1-4: exact (addString_tail_all _ id).
    rewrite addString_loops_step, IH by (simpl in Hn; lia).
    cbn [words_of_string ID.push_back Bits].
    rewrite <- app_assoc. reflexivity.
Qed.

Lemma addString_words id s :
  s ≠ EmptyString →
  Bits (ID.addString id s) = Bits id ++ words_of_string s.
Proof.
  intros Hs. destruct s as [|a s]; [congruence|].
  apply (addString_loops_words (String.length (String a s))). lia.
Qed.





Lemma byte_of_char_range c : (0 ≤ byte_of_char c < 256)%Z.
Proof.
  unfold byte_of_char. pose proof (N_ascii_bounded c). lia.
Qed.

Lemma uint32_of_ascii c :
  (byte_of_char c < 128)%Z → uint32_of_char c = byte_of_char c.
Proof.
  intros H. pose proof (byte_of_char_range c).
  unfold uint32_of_char, char_value, to_uint32.
  destruct (128 <=? byte_of_char c)%Z eqn:E; [lia|].
  rewrite andb_false_r. apply Z.mod_small. lia.
Qed.

Lemma pack4_ascii a b c d :
  (byte_of_char a < 128)%Z → (byte_of_char b < 128)%Z →
  (byte_of_char c < 128)%Z → (byte_of_char d < 128)%Z →
  pack4 a b c d
  = (byte_of_char a + 2 ^ 8 * byte_of_char b + 2 ^ 16 * byte_of_char c
     + 2 ^ 24 * byte_of_char d)%Z.
Proof.
  intros Ha Hb Hc Hd.
  pose proof (byte_of_char_range a). pose proof (byte_of_char_range b).
  pose proof (byte_of_char_range c). pose proof (byte_of_char_range d).
  unfold pack4, add32, shl32, to_uint32.
  rewrite !uint32_of_ascii by assumption.
  rewrite !Z.shiftl_mul_pow2 by lia.
  change (2 ^ 8)%Z with 256%Z. change (2 ^ 16)%Z with 65536%Z.
  change (2 ^ 24)%Z with 16777216%Z. change (2 ^ 32)%Z with 4294967296%Z.
  rewrite (Z.mod_small (byte_of_char b * 256)) by lia.
  rewrite (Z.mod_small (byte_of_char c * 65536)) by lia.
  rewrite (Z.mod_small (byte_of_char d * 16777216)) by lia.
  rewrite (Z.mod_small (byte_of_char a + _)) by lia.
  rewrite (Z.mod_small (byte_of_char a + _ + _)) by lia.
  rewrite Z.mod_small by lia. lia.
Qed.





(* --------------------------------------------------------------------- *)
(** ** OpaqueArchetypeTypeRef: the argument lists *)
(* --------------------------------------------------------------------- *)

Lemma collect_arguments_acc ll lens buf :
  fold_left
    (fun '(argumentListLengths, AllArgumentsBuf) (argList : list nat) =>
       (argumentListLengths ++ [length argList], AllArgumentsBuf ++ argList))
    ll (lens, buf)
  = (lens ++ map length ll, buf ++ concat ll).
Proof.
  revert lens buf. induction ll as [|l ll IH]; intros lens buf; simpl.
  - now rewrite !app_nil_r.
  - rewrite IH, <- !app_assoc. reflexivity.
Qed.

Lemma collect_arguments_eq ll :
  collect_arguments ll = (map length ll, concat ll).
Proof. unfold collect_arguments. now rewrite collect_arguments_acc. Qed.

Lemma publish_views_acc lens views data :
  fold_left
    (fun '(ArgumentLists, data) length =>
       (ArgumentLists ++ [mkArrayRef data length], data + length))
    lens (views, data)
  = (views ++ views_from data lens, data + list_sum lens).
Proof.
  revert views data. induction lens as [|n lens IH]; intros views data; simpl.
  - rewrite app_nil_r. f_equal. lia.
  - rewrite IH, <- app_assoc. simpl. f_equal. lia.
Qed.

Lemma publish_views_eq lens :
  publish_views lens = (views_from 0 lens, list_sum lens).
Proof. unfold publish_views. now rewrite publish_views_acc. Qed.

Lemma OpaqueArchetypeTypeRef_eq id description ordinal ll :
  OpaqueArchetypeTypeRef id description ordinal ll
  = mkTypeRef TypeRefKind.OpaqueArchetype
      (OpaqueArchetypeData id description ordinal (concat ll)
         (views_from 0 (map length ll))).
Proof.
  unfold OpaqueArchetypeTypeRef.
  now rewrite collect_arguments_eq, publish_views_eq.
Qed.

Lemma length_concat_sum (ll : list (list nat)) :
  length (concat ll) = list_sum (map length ll).
Proof.
  induction ll as [|l ll IH]; simpl; [reflexivity|].
  rewrite length_app, IH. reflexivity.
Qed.

Lemma views_from_read pre ll :
  map (view_elements (pre ++ concat ll))
      (views_from (length pre) (map length ll)) = ll.
Proof.
  revert pre. induction ll as [|l ll IH]; intros pre; simpl; [reflexivity|].
  f_equal.
  - unfold view_elements. simpl.
    rewrite drop_app_length, take_app_length. reflexivity.
  - specialize (IH (pre ++ l)).
    rewrite length_app, <- app_assoc in IH. exact IH.
Qed.

Lemma views_from_length data lens :
  length (views_from data lens) = length lens.
Proof.
  revert data. induction lens as [|n lens IH]; intros data; simpl;
    [reflexivity|]. now rewrite IH.
Qed.

Lemma views_from_size data lens :
  map view_size (views_from data lens) = lens.
Proof.
  revert data. induction lens as [|n lens IH]; intros data; simpl;
    [reflexivity|]. now rewrite IH.
Qed.

Lemma views_from_bounds data lens :
  Forall (fun v => data ≤ view_data v
                   ∧ view_data v + view_size v ≤ data + list_sum lens)
         (views_from data lens).
Proof.
  revert data. induction lens as [|n lens IH]; intros data; simpl;
    constructor.
  - simpl. lia.
  - eapply Forall_impl; [apply IH|]. simpl. intros v. lia.
Qed.

Lemma readArgumentLists_construct id description ordinal ll :
  readArgumentLists (OpaqueArchetypeTypeRef id description ordinal ll) = ll.
Proof.
  rewrite OpaqueArchetypeTypeRef_eq. unfold readArgumentLists. simpl.
  apply (views_from_read []).
Qed.

(** C5. The node built from a sequence of argument lists publishes one
    view per input list; the i-th view has the length of the i-th list and
    reads back that very list from the buffer of the node, so the views
    concatenated give the flattened input; the buffer of the node is the
    flattened input, every view lies within it, and the assertion that
    ends the constructor holds.  The views are offsets into the buffer
    of the node: nothing of the caller's lists is referenced. *)
Theorem OpaqueArchetype_argument_lists
    (id description : string) (ordinal : Z) (argumentLists : list (list nat)) :
  let TR := OpaqueArchetypeTypeRef id description ordinal argumentLists in
  length (getArgumentLists TR) = length argumentLists
  ∧ map view_size (getArgumentLists TR) = map length argumentLists
  ∧ readArgumentLists TR = argumentLists
  ∧ concat (readArgumentLists TR) = concat argumentLists
  ∧ getAllArgumentsBuf TR = concat argumentLists
  ∧ Forall (fun v => view_data v + view_size v
                     ≤ length (getAllArgumentsBuf TR))
           (getArgumentLists TR)
  ∧ OpaqueArchetype_assertion argumentLists = true.
Proof.
  intros TR.
  assert (HR : readArgumentLists TR = argumentLists)
    by apply readArgumentLists_construct.
  subst TR. rewrite HR. rewrite OpaqueArchetypeTypeRef_eq.
  unfold getArgumentLists, getAllArgumentsBuf. simpl.
  repeat apply conj; try reflexivity.
  - now rewrite views_from_length, length_map.
  - apply views_from_size.
  - eapply Forall_impl; [apply views_from_bounds|].
    simpl. intros v. rewrite length_concat_sum. lia.
  - unfold OpaqueArchetype_assertion.
    rewrite collect_arguments_eq, publish_views_eq.
    apply bool_decide_eq_true. rewrite length_concat_sum. reflexivity.
Qed.

(* --------------------------------------------------------------------- *)
(** ** TupleTypeRef::getLabels *)
(* --------------------------------------------------------------------- *)

Lemma append_nil (b : string) : String.append EmptyString b = b.
Proof. reflexivity. Qed.

Lemma append_cons x (a b : string) :
  String.append (String x a) b = String x (String.append a b).
Proof. reflexivity. Qed.

Lemma append_assoc (a b c : string) :
  String.append (String.append a b) c = String.append a (String.append b c).
Proof.
  induction a as [|x a IH]; rewrite ?append_nil, ?append_cons;
    [reflexivity|]. now rewrite IH.
Qed.

Lemma append_length (a b : string) :
  String.length (String.append a b) = String.length a + String.length b.
Proof.
  induction a as [|x a IH]; rewrite ?append_nil, ?append_cons; simpl;
    [reflexivity|]. now rewrite IH.
Qed.

Lemma find_skip pre s c :
  find (String.append pre s) c (String.length pre)
  = (fun n => String.length pre + n) <$> find s c 0.
Proof.
  induction pre as [|x pre IH]; rewrite ?append_nil, ?append_cons; simpl.
  - destruct (find s c 0); reflexivity.
  - rewrite IH. destruct (find s c 0); reflexivity.
Qed.

Lemma find_terminator l rest :
  no_space l = true →
  find (String.append l (String " " rest)) " " 0 = Some (String.length l).
Proof.
  induction l as [|x l IH]; rewrite ?append_nil, ?append_cons; simpl;
    [reflexivity|].
  intros [Hx Hl]%andb_true_iff.
  destruct (Ascii.eqb x " "); [discriminate|].
  now rewrite IH.
Qed.

Lemma find_no_space t : no_space t = true → find t " " 0 = None.
Proof.
  induction t as [|x t IH]; simpl; [reflexivity|].
  intros [Hx Ht]%andb_true_iff.
  destruct (Ascii.eqb x " "); [discriminate|].
  now rewrite IH.
Qed.

Lemma substring_prefix l rest :
  String.substring 0 (String.length l) (String.append l rest) = l.
Proof.
  induction l as [|x l IH]; rewrite ?append_nil, ?append_cons; simpl.
  - destruct rest; reflexivity.
  - now rewrite IH.
Qed.

Lemma substring_skip pre l rest :
  String.substring (String.length pre) (String.length l)
    (String.append pre (String.append l rest)) = l.
Proof.
  induction pre as [|x pre IH]; rewrite ?append_nil, ?append_cons; simpl;
    [apply substring_prefix|exact IH].
Qed.

Lemma getLabels_loop_terminated labels :
  ∀ pre tail Vec fuel,
    Forall (fun l => no_space l = true) labels →
    no_space tail = true →
    length labels < fuel →
    getLabels_loop fuel
      (String.append pre (String.append (terminated labels) tail))
      (String.length pre) Vec
    = Some (Vec ++ labels).
Proof.
  induction labels as [|l labels IH]; intros pre tail Vec fuel Hl Ht Hf.
  - destruct fuel as [|fuel]; [simpl in Hf; lia|].
    cbn [getLabels_loop terminated]. rewrite append_nil.
    rewrite find_skip, find_no_space by assumption. simpl.
    now rewrite app_nil_r.
  - destruct fuel as [|fuel]; [simpl in Hf; lia|].
    inversion Hl as [|? ? Hl1 Hl2]; subst.
    cbn [getLabels_loop terminated].
    rewrite !append_assoc, append_cons.
    rewrite find_skip, find_terminator by assumption.
    cbn [fmap option_fmap option_map].
    replace (String.length pre + String.length l - String.length pre)
      with (String.length l) by lia.
    rewrite substring_skip.
    specialize (IH (String.append pre (String.append l (String " " "")))
                  tail (Vec ++ [l]) fuel Hl2 Ht).
    rewrite !append_assoc, append_cons, append_nil in IH.
    rewrite !append_length in IH. simpl String.length in IH.
    replace (String.length pre + (String.length l + 1))
      with (String.length pre + String.length l + 1) in IH by lia.
    rewrite IH by (simpl in Hf; lia).
    now rewrite <- app_assoc.
Qed.

Lemma terminated_length labels :
  length labels ≤ String.length (terminated labels).
Proof.
  induction labels as [|l labels IH]; simpl; [lia|].
  rewrite append_length. simpl. lia.
Qed.

Lemma getLabels_terminated Elements labels tail :
  Forall (fun l => no_space l = true) labels →
  no_space tail = true →
  getLabels (TupleTypeRef Elements (String.append (terminated labels) tail))
  = Some (labels ++ replicate (length Elements - length labels) EmptyString).
Proof.
  intros Hl Ht. unfold getLabels.
  change (getLabelString (TupleTypeRef Elements ?x)) with x.
  change (getElements (TupleTypeRef Elements ?x)) with Elements.
  pose proof (getLabels_loop_terminated labels EmptyString tail []
                (S (String.length (String.append (terminated labels) tail)))
                Hl Ht) as H.
  rewrite append_nil in H. simpl String.length in H.
  rewrite H.
  - reflexivity.
  - rewrite append_length. pose proof (terminated_length labels). lia.
Qed.

(** Every label string is a run of space-terminated labels followed by a
    rest that holds no space. *)
Lemma label_string_decomposition (Labels : string) :
  ∃ labels tail,
    Forall (fun l => no_space l = true) labels
    ∧ no_space tail = true
    ∧ Labels = String.append (terminated labels) tail.
Proof.
  induction Labels as [|c s (labels & tail & Hl & Ht & ->)].
  - exists [], EmptyString. repeat split; constructor.
  - destruct (Ascii.eqb c " ") eqn:E.
    + apply Ascii.eqb_eq in E. subst c.
      exists (EmptyString :: labels), tail. repeat split; auto.
    + destruct labels as [|l labels].
      * exists [], (String c tail). repeat split; auto.
        simpl. now rewrite E.
      * inversion Hl; subst.
        exists (String c l :: labels), tail. repeat split; auto.
        constructor; auto. simpl. now rewrite E.
Qed.

(** C2 fails as stated: on three elements and the label string "x y" the
    labels returned are not "x", "y", "". *)
Lemma getLabels_x_y_not_round_trip :
  getLabels (TupleTypeRef [1; 2; 3] "x y") ≠ Some ["x"; "y"; ""]%string.
Proof. vm_compute. discriminate. Qed.

(** C2, amended. For a TupleTypeRef built with three elements and the
    label string "x y", getLabels returns exactly three labels, "x", ""
    and "": the label "y" is not terminated by a space and is not
    reported.  With the label string "x y ", where a space ends every
    label, the three labels are "x", "y" and "". *)
Theorem getLabels_three_elements (e1 e2 e3 : nat) :
  getLabels (TupleTypeRef [e1; e2; e3] "x y") = Some ["x"; ""; ""]%string
  ∧ getLabels (TupleTypeRef [e1; e2; e3] "x y ")
    = Some ["x"; "y"; ""]%string.
Proof. split; reflexivity. Qed.

(** C9. Whatever the elements and the label string of a TupleTypeRef: the
    label string is a run of labels each ended by a space, followed by a
    rest without space (the whole string when it holds no space); getLabels
    returns exactly those space-terminated labels, never the rest, followed
    by as many empty labels as the element count exceeds their number; when
    there are more space-terminated labels than elements, the result is
    longer than the element list. *)
Theorem getLabels_space_terminated (Elements : list nat) (Labels : string) :
  (∃ labels tail,
     Forall (fun l => no_space l = true) labels
     ∧ no_space tail = true
     ∧ Labels = String.append (terminated labels) tail)
  ∧ (∀ labels tail,
       Forall (fun l => no_space l = true) labels →
       no_space tail = true →
       Labels = String.append (terminated labels) tail →
       ∃ Vec,
         getLabels (TupleTypeRef Elements Labels) = Some Vec
         ∧ Vec = labels
                 ++ replicate (length Elements - length labels) EmptyString
         ∧ (length labels ≤ length Elements →
            length Vec = length Elements)
         ∧ (length Elements < length labels →
            length Elements < length Vec)).
Proof.
  split; [apply label_string_decomposition|].
  intros labels tail Hl Ht ->. eexists. split; [|split; [reflexivity|]].
  - now apply getLabels_terminated.
  - rewrite length_app, length_replicate. split; lia.
Qed.

(** The theorem at one element and the label string "a b c": the labels
    are "a" and "b", one more than there are elements, and "c" is not
    among them. *)
Lemma getLabels_space_terminated_witness :
  ∃ Vec, getLabels (TupleTypeRef [1] "a b c") = Some Vec
         ∧ Vec = ["a"; "b"]%string ∧ 1 < length Vec.
Proof.
  destruct (proj2 (getLabels_space_terminated [1] "a b c")
              ["a"; "b"]%string "c"%string)
    as (Vec & HV & HE & _ & Hlong).
  - repeat constructor.
  - reflexivity.
  - reflexivity.
  - exists Vec. split; [exact HV|]. split; [exact HE|].
    apply Hlong. simpl. lia.
Defined.

(* --------------------------------------------------------------------- *)
(** ** Kinds *)
(* --------------------------------------------------------------------- *)

Lemma getKind_construct args : getKind (construct args) = TypeRefTy args.
Proof.
  destruct args; try reflexivity.
  simpl. now rewrite OpaqueArchetypeTypeRef_eq.
Qed.

Lemma getArgs_construct args : getArgs (construct args) = Some args.
Proof.
  destruct args; try reflexivity.
  unfold getArgs. simpl construct.
  rewrite readArgumentLists_construct, OpaqueArchetypeTypeRef_eq.
  reflexivity.
Qed.

Lemma construct_inj args1 args2 :
  construct args1 = construct args2 → args1 = args2.
Proof.
  intros H. apply (f_equal getArgs) in H.
  rewrite !getArgs_construct in H. congruence.
Qed.

(* --------------------------------------------------------------------- *)
(** ** FIND_OR_CREATE_TYPEREF *)
(* --------------------------------------------------------------------- *)

Lemma create_hit A args p :
  cache_find A (TypeRefTy args) (profile args) = Some p →
  create A args = (A, p).
Proof.
  intros H. unfold create, FIND_OR_CREATE_TYPEREF. now rewrite H.
Qed.

Lemma create_miss A args :
  cache_find A (TypeRefTy args) (profile args) = None →
  create A args
  = (cache_insert (makeTypeRef A (construct args)).1
       (TypeRefTy args) (profile args) (S (length (TypeRefPool A))),
     S (length (TypeRefPool A))).
Proof.
  intros H. unfold create, FIND_OR_CREATE_TYPEREF. now rewrite H.
Qed.

Lemma create_miss_fst A args :
  cache_find A (TypeRefTy args) (profile args) = None →
  (create A args).1
  = cache_insert (makeTypeRef A (construct args)).1
      (TypeRefTy args) (profile args) (S (length (TypeRefPool A))).
Proof. intros H. now rewrite (create_miss _ _ H). Qed.

Lemma create_miss_snd A args :
  cache_find A (TypeRefTy args) (profile args) = None →
  (create A args).2 = S (length (TypeRefPool A)).
Proof. intros H. now rewrite (create_miss _ _ H). Qed.

Lemma cache_find_insert A K ID p K' ID' :
  cache_find A K ID = None →
  cache_find (cache_insert A K ID p) K' ID'
  = if decide (K' = K ∧ ID' = ID) then Some p else cache_find A K' ID'.
Proof.
  unfold cache_find, cache_insert. simpl. intros H.
  destruct (decide (K' = K)) as [->|HK].
  - rewrite H. destruct (decide (ID' = ID)) as [->|HI].
    + rewrite lookup_insert_eq. now rewrite decide_True.
    + rewrite lookup_insert_ne by congruence.
      rewrite decide_False by tauto. reflexivity.
  - rewrite decide_False by tauto. reflexivity.
Qed.

Lemma deref_makeTypeRef A TR p :
  deref (makeTypeRef A TR).1 p
  = if decide (p = S (length (TypeRefPool A))) then Some TR else deref A p.
Proof.
  unfold makeTypeRef, deref. simpl. destruct p as [|i].
  - now rewrite decide_False by lia.
  - destruct (decide (S i = S (length (TypeRefPool A)))) as [E|E].
    + injection E as ->. rewrite lookup_app_r by lia.
      now rewrite Nat.sub_diag.
    + destruct (decide (i < length (TypeRefPool A))).
      * now rewrite lookup_app_l.
      * rewrite !lookup_ge_None_2; [reflexivity|lia|].
        rewrite length_app. simpl. lia.
Qed.

Lemma deref_valid A p TR :
  deref A p = Some TR → 0 < p ≤ length (TypeRefPool A).
Proof.
  destruct p as [|i]; simpl; [discriminate|].
  intros H%lookup_lt_Some. lia.
Qed.

Lemma deref_create A args p TR :
  deref A p = Some TR → deref (create A args).1 p = Some TR.
Proof.
  intros H. pose proof (deref_valid _ _ _ H).
  destruct (cache_find A (TypeRefTy args) (profile args)) as [q|] eqn:E.
  - now rewrite (create_hit _ _ _ E).
  - rewrite (create_miss_fst _ _ E).
    change (deref (cache_insert ?B _ _ _) p) with (deref B p).
    rewrite deref_makeTypeRef, decide_False by lia. exact H.
Qed.

Lemma deref_create_all calls : ∀ A p TR,
  deref A p = Some TR → deref (create_all A calls) p = Some TR.
Proof.
  induction calls as [|args calls IH]; intros A p TR H; simpl; [exact H|].
  apply IH, deref_create, H.
Qed.

Lemma cache_find_create A args K ID p :
  cache_find A K ID = Some p →
  cache_find (create A args).1 K ID = Some p.
Proof.
  intros H.
  destruct (cache_find A (TypeRefTy args) (profile args)) as [q|] eqn:E.
  - now rewrite (create_hit _ _ _ E).
  - rewrite (create_miss_fst _ _ E).
    rewrite cache_find_insert by exact E.
    destruct (decide _) as [[-> ->]|_]; [|exact H].
    unfold makeTypeRef, cache_find in *. simpl in *. congruence.
Qed.

Lemma cache_find_create_all calls : ∀ A K ID p,
  cache_find A K ID = Some p →
  cache_find (create_all A calls) K ID = Some p.
Proof.
  induction calls as [|args calls IH]; intros A K ID p H; simpl; [exact H|].
  apply IH, cache_find_create, H.
Qed.

(** After [create], the cache of the class maps the profile of the
    arguments to the node returned. *)
Lemma create_entered A args :
  cache_find (create A args).1 (TypeRefTy args) (profile args)
  = Some (create A args).2.
Proof.
  destruct (cache_find A (TypeRefTy args) (profile args)) as [q|] eqn:E.
  - now rewrite (create_hit _ _ _ E).
  - rewrite (create_miss_fst _ _ E), (create_miss_snd _ _ E).
    rewrite cache_find_insert by exact E.
    now rewrite decide_True.
Qed.

Lemma builder_inv_empty : builder_inv emptyBuilder.
Proof.
  split.
  - intros K ID p H. unfold cache_find in H. simpl in H.
    now rewrite lookup_empty in H.
  - intros [|i] TR H; simpl in H; [discriminate|].
    now rewrite lookup_nil in H.
Qed.

Lemma builder_inv_create A args :
  builder_inv A → builder_inv (create A args).1.
Proof.
  intros [Hs Hr].
  destruct (cache_find A (TypeRefTy args) (profile args)) as [q|] eqn:E.
  { rewrite (create_hit _ _ _ E). now split. }
  rewrite (create_miss_fst _ _ E).
  set (B := (makeTypeRef A (construct args)).1).
  assert (HB : cache_find B (TypeRefTy args) (profile args) = None)
    by exact E.
  assert (HD : ∀ p, deref (cache_insert B (TypeRefTy args) (profile args)
                             (S (length (TypeRefPool A)))) p
                    = deref B p) by reflexivity.
  split.
  - intros K ID p H. rewrite cache_find_insert in H by exact HB.
    rewrite HD. subst B. rewrite deref_makeTypeRef.
    destruct (decide _) as [[-> ->]|_].
    + injection H as <-. rewrite decide_True by reflexivity.
      exists args. auto.
    + destruct (Hs K ID p H) as (a & Ha & HK & HI).
      pose proof (deref_valid _ _ _ Ha).
      rewrite decide_False by lia. exists a. auto.
  - intros p TR H. rewrite HD in H. subst B.
    rewrite deref_makeTypeRef in H.
    destruct (decide (p = S (length (TypeRefPool A)))) as [->|Hp].
    + injection H as <-. exists args. split; [reflexivity|].
      rewrite cache_find_insert by exact HB. now rewrite decide_True.
    + destruct (Hr p TR H) as (a & -> & Ha). exists a.
      split; [reflexivity|].
      rewrite cache_find_insert by exact HB.
      destruct (decide _) as [[HK HI]|_]; [|exact Ha].
      rewrite HK, HI in Ha. unfold makeTypeRef, cache_find in *.
      simpl in *. congruence.
Qed.

Lemma builder_inv_create_all calls : ∀ A,
  builder_inv A → builder_inv (create_all A calls).
Proof.
  induction calls as [|args calls IH]; intros A H; simpl; [exact H|].
  apply IH, builder_inv_create, H.
Qed.

(** Two cache entries that designate the same node are the same entry. *)
Lemma cache_injective A K1 ID1 K2 ID2 p :
  builder_inv A →
  cache_find A K1 ID1 = Some p → cache_find A K2 ID2 = Some p →
  K1 = K2 ∧ ID1 = ID2.
Proof.
  intros [Hs _] H1 H2.
  destruct (Hs _ _ _ H1) as (a1 & D1 & <- & <-).
  destruct (Hs _ _ _ H2) as (a2 & D2 & <- & <-).
  rewrite D1 in D2. injection D2 as D2%construct_inj. now subst.
Qed.

(** C10. Every variant constructor stores the kind of its class, and the
    kinds of different classes differ (the class of a constructed node is
    named by its kind, [TypeRefTy]); a node of an allocator is never
    changed by later [create] calls, so that [getKind] keeps returning
    the kind stored at construction; hence [classof] of a class holds for
    a node exactly when the node was constructed by that class:
    for constructed nodes in general, for the nodes of any allocator, and
    for the reference-storage family. *)
Theorem kind_discriminant_invariant :
  (∀ n, getKind (BuiltinTypeRef n) = TypeRefKind.Builtin)
  ∧ (∀ n p, getKind (NominalTypeRef n p) = TypeRefKind.Nominal)
  ∧ (∀ n gs p,
       getKind (BoundGenericTypeRef n gs p) = TypeRefKind.BoundGeneric)
  ∧ (∀ es ls, getKind (TupleTypeRef es ls) = TypeRefKind.Tuple)
  ∧ (∀ i d o a,
       getKind (OpaqueArchetypeTypeRef i d o a) = TypeRefKind.OpaqueArchetype)
  ∧ (∀ ps r f, getKind (FunctionTypeRef ps r f) = TypeRefKind.Function)
  ∧ (∀ ps s h,
       getKind (ProtocolCompositionTypeRef ps s h)
       = TypeRefKind.ProtocolComposition)
  ∧ (∀ i w, getKind (MetatypeTypeRef i w) = TypeRefKind.Metatype)
  ∧ (∀ i,
       getKind (ExistentialMetatypeTypeRef i)
       = TypeRefKind.ExistentialMetatype)
  ∧ (∀ d i,
       getKind (GenericTypeParameterTypeRef d i)
       = TypeRefKind.GenericTypeParameter)
  ∧ (∀ m b p,
       getKind (DependentMemberTypeRef m b p) = TypeRefKind.DependentMember)
  ∧ (∀ n, getKind (ForeignClassTypeRef n) = TypeRefKind.ForeignClass)
  ∧ (∀ n, getKind (ObjCClassTypeRef n) = TypeRefKind.ObjCClass)
  ∧ (∀ n, getKind (ObjCProtocolTypeRef n) = TypeRefKind.ObjCProtocol)
  ∧ getKind OpaqueTypeRef = TypeRefKind.Opaque
  ∧ (∀ t, getKind (WeakStorageTypeRef t) = TypeRefKind.WeakStorage)
  ∧ (∀ t, getKind (UnownedStorageTypeRef t) = TypeRefKind.UnownedStorage)
  ∧ (∀ t, getKind (UnmanagedStorageTypeRef t) = TypeRefKind.UnmanagedStorage)
  ∧ (∀ b, getKind (SILBoxTypeRef b) = TypeRefKind.SILBox)
  ∧ (∀ X args, classof X (construct args) = true ↔ TypeRefTy args = X)
  ∧ (∀ X, classof X OpaqueTypeRef = true ↔ X = TypeRefKind.Opaque)
  ∧ (∀ args,
       ReferenceStorage_classof (construct args) = true
       ↔ ∃ t, args = WeakStorageArgs t ∨ args = UnownedStorageArgs t
              ∨ args = UnmanagedStorageArgs t)
  ∧ (∀ A calls p TR,
       deref A p = Some TR →
       getKind <$> deref (create_all A calls) p = Some (getKind TR))
  ∧ (∀ calls p TR,
       deref (create_all emptyBuilder calls) p = Some TR →
       ∃ args, TR = construct args
               ∧ ∀ X, classof X TR = true ↔ TypeRefTy args = X).
Proof.
  assert (Hclass : ∀ X args,
            classof X (construct args) = true ↔ TypeRefTy args = X).
  { intros X args. unfold classof, TypeRefKind.eqb.
    rewrite getKind_construct. apply bool_decide_eq_true. }
  repeat apply conj; try reflexivity; try exact Hclass.
  - intros i d o a. apply (getKind_construct (OpaqueArchetypeArgs i d o a)).
  - intros X. unfold classof, TypeRefKind.eqb. rewrite bool_decide_eq_true.
    simpl. split; congruence.
  - intros args. unfold ReferenceStorage_classof.
    rewrite getKind_construct.
    destruct args; simpl; split;
      try discriminate; try (intros _; eexists; eauto; fail);
      intros (t & [H|[H|H]]); discriminate.
  - intros A calls p TR H.
    now rewrite (deref_create_all calls _ _ _ H).
  - intros calls p TR H.
    destruct (pool_registered _
                (builder_inv_create_all calls _ builder_inv_empty) p TR H)
      as (args & -> & _).
    exists args. split; [reflexivity|]. intros X. apply Hclass.
Qed.

(** The theorem at a Nominal node created in an allocator that is used
    further: the node keeps its kind. *)
Lemma kind_discriminant_invariant_witness :
  getKind
  <$> deref (create_all (create emptyBuilder (NominalArgs "Int" 0)).1
               [BuiltinArgs "Bi"; TupleArgs [1; 2] ""]) 1
  = Some TypeRefKind.Nominal.
Proof.
  destruct kind_discriminant_invariant as (_ & _ & _ & _ & _ & _ & _ & _ & _
    & _ & _ & _ & _ & _ & _ & _ & _ & _ & _ & _ & _ & _ & Hlife & _).
  apply (Hlife _ _ 1 (NominalTypeRef "Int" 0)). reflexivity.
Defined.

(* --------------------------------------------------------------------- *)
(** ** TypeRefVisitor::visit *)
(* --------------------------------------------------------------------- *)

Lemma switch_cases_enum Id :
  switch_cases TypeRefs_def (enum_value Id) = Some Id.
Proof. destruct Id; reflexivity. Qed.

Lemma switch_cases_Some cases tag Id :
  switch_cases cases tag = Some Id → tag = enum_value Id.
Proof.
  induction cases as [|K cases IH]; simpl; [discriminate|].
  destruct (Z.eqb_spec tag (enum_value K)) as [->|_]; [|exact IH].
  now intros [= ->].
Qed.

Lemma switch_cases_None cases tag Id :
  switch_cases cases tag = None → Id ∈ cases → enum_value Id ≠ tag.
Proof.
  induction cases as [|K cases IH]; simpl; intros H Hin.
  - now apply not_elem_of_nil in Hin.
  - destruct (Z.eqb_spec tag (enum_value K)) as [->|Hne]; [discriminate|].
    apply elem_of_cons in Hin as [->|Hin]; [congruence|]. now apply IH.
Qed.

Lemma TypeRefs_def_complete Id : Id ∈ TypeRefs_def.
Proof. destruct Id; unfold TypeRefs_def; set_solver. Qed.

Lemma enum_value_nth (n : nat) :
  n < 19 →
  enum_value (nth n TypeRefs_def TypeRefKind.Builtin) = Z.of_nat n.
Proof.
  intros Hn. do 19 (destruct n as [|n]; [reflexivity|]). lia.
Qed.

Lemma enum_value_range Id : (0 ≤ enum_value Id < 19)%Z.
Proof. destruct Id; vm_compute; split; congruence. Qed.

(** C7. On every node, [visit] ends in the handler of the kind of the
    node, and the [cast] to the class of that handler succeeds; a stored
    tag reaches the handler of [Id] exactly when it is the value of
    [Id], so no tag reaches two handlers, and the enumerators have
    different values; the trap "Unhandled TypeRefKind in switch." is
    reached exactly by the tags that are the value of no enumerator, that
    is, never for a node whose tag is an enumerated kind. *)
Theorem visit_dispatch :
  (∀ TR, visit TR = Handler (getKind TR)
         ∧ classof (getKind TR) TR = true)
  ∧ (∀ tag Id, visit_tag tag = Handler Id ↔ tag = enum_value Id)
  ∧ (∀ Id1 Id2, enum_value Id1 = enum_value Id2 → Id1 = Id2)
  ∧ (∀ tag,
       (∃ msg, visit_tag tag = swift_runtime_unreachable msg)
       ↔ ∀ Id, enum_value Id ≠ tag)
  ∧ (∀ tag,
       (∃ msg, visit_tag tag = swift_runtime_unreachable msg)
       ↔ (tag < 0 ∨ 19 ≤ tag)%Z).
Proof.
  assert (Hh : ∀ tag Id, visit_tag tag = Handler Id ↔ tag = enum_value Id).
  { intros tag Id. unfold visit_tag. split.
    - destruct (switch_cases TypeRefs_def tag) as [K|] eqn:E; [|discriminate].
      intros [= ->]. now apply switch_cases_Some in E.
    - intros ->. now rewrite switch_cases_enum. }
  assert (Hu : ∀ tag,
            (∃ msg, visit_tag tag = swift_runtime_unreachable msg)
            ↔ ∀ Id, enum_value Id ≠ tag).
  { intros tag. unfold visit_tag. split.
    - intros [msg H] Id.
      destruct (switch_cases TypeRefs_def tag) as [K|] eqn:E; [discriminate|].
      eapply switch_cases_None; [exact E|apply TypeRefs_def_complete].
    - intros H.
      destruct (switch_cases TypeRefs_def tag) as [K|] eqn:E; [|eauto].
      apply switch_cases_Some in E. now destruct (H K). }
  repeat apply conj; [| exact Hh | | exact Hu |].
  - intros TR. split.
    + unfold visit. now apply Hh.
    + unfold classof, TypeRefKind.eqb. now apply bool_decide_eq_true.
  - intros Id1 Id2 H. destruct Id1, Id2; (reflexivity || discriminate H).
  - intros tag. rewrite Hu. split.
    + intros H.
      destruct (Z_lt_le_dec tag 0) as [?|H0]; [now left|].
      destruct (Z_lt_le_dec tag 19) as [H19|?]; [|now right].
      exfalso.
      apply (H (nth (Z.to_nat tag) TypeRefs_def TypeRefKind.Builtin)).
      rewrite enum_value_nth; lia.
    + intros H Id. pose proof (enum_value_range Id). lia.
Qed.

(** The theorem at a tuple node and at the tags 3, 19 and -1. *)
Lemma visit_dispatch_witness :
  visit (TupleTypeRef [1; 2] "") = Handler TypeRefKind.Tuple
  ∧ visit_tag 3 = Handler TypeRefKind.Tuple
  ∧ (∃ msg, visit_tag 19 = swift_runtime_unreachable msg)
  ∧ (∃ msg, visit_tag (-1) = swift_runtime_unreachable msg).
Proof.
  destruct visit_dispatch as (Hv & Hh & _ & _ & Hu).
  repeat apply conj.
  - apply Hv.
  - apply Hh. reflexivity.
  - apply Hu. right. reflexivity || lia.
  - apply Hu. left. reflexivity.
Defined.

(* --------------------------------------------------------------------- *)
(** ** Uniquing *)
(* --------------------------------------------------------------------- *)

(** C1 fails as stated: two [create] calls of OpaqueArchetypeTypeRef whose
    arguments differ in one position, the description, return the same
    node. *)
Lemma create_differing_arguments_same_node :
  let first := OpaqueArchetypeArgs "id" "first" 0 [] in
  let second := OpaqueArchetypeArgs "id" "second" 0 [] in
  let A1 := (create emptyBuilder first).1 in
  first ≠ second
  ∧ (create emptyBuilder first).2 = (create A1 second).2.
Proof. split; [discriminate | reflexivity]. Qed.

(** C1, amended. On one allocator (reached from the empty one by any run
    of [create] calls), take two [create] calls of the same variant class,
    with any run of [create] calls between them: if their arguments
    produce equal TypeRefIDs the two calls return the identical node, and
    if their arguments produce different TypeRefIDs they return distinct
    nodes.  Calls of different classes return distinct nodes as well. *)
Theorem create_uniquing
    (history : list CreateArgs) (args1 : CreateArgs)
    (between : list CreateArgs) (args2 : CreateArgs) :
  let A := create_all emptyBuilder history in
  let p1 := (create A args1).2 in
  let p2 := (create (create_all (create A args1).1 between) args2).2 in
  (TypeRefTy args1 = TypeRefTy args2 → profile args1 = profile args2 →
   p1 = p2)
  ∧ (TypeRefTy args1 = TypeRefTy args2 → profile args1 ≠ profile args2 →
     p1 ≠ p2)
  ∧ (TypeRefTy args1 ≠ TypeRefTy args2 → p1 ≠ p2).
Proof.
  intros A p1 p2.
  set (A1 := (create A args1).1) in *.
  set (B := create_all A1 between) in *.
  set (A2 := (create B args2).1).
  assert (H1 : cache_find A2 (TypeRefTy args1) (profile args1) = Some p1).
  { apply cache_find_create, cache_find_create_all, create_entered. }
  assert (H2 : cache_find A2 (TypeRefTy args2) (profile args2) = Some p2)
    by apply create_entered.
  assert (HI : builder_inv A2).
  { apply builder_inv_create, builder_inv_create_all, builder_inv_create,
      builder_inv_create_all, builder_inv_empty. }
  repeat apply conj.
  - intros HK HP. rewrite HK, HP in H1. congruence.
  - intros _ HP E. rewrite E in H1.
    destruct (cache_injective _ _ _ _ _ _ HI H1 H2). contradiction.
  - intros HK E. rewrite E in H1.
    destruct (cache_injective _ _ _ _ _ _ HI H1 H2). contradiction.
Qed.

(** The theorem at two Nominal calls with different names, separated by
    a Builtin call, on an allocator that holds a tuple already. *)
Lemma create_uniquing_witness :
  let A := create_all emptyBuilder [TupleArgs [] ""] in
  (create A (NominalArgs "Int" 0)).2
  ≠ (create (create_all (create A (NominalArgs "Int" 0)).1 [BuiltinArgs "Bi"])
       (NominalArgs "String" 0)).2.
Proof.
  intros A.
  apply (proj1 (proj2 (create_uniquing [TupleArgs [] ""]
                         (NominalArgs "Int" 0) [BuiltinArgs "Bi"]
                         (NominalArgs "String" 0)))).
  - reflexivity.
  - vm_compute. discriminate.
Defined.

(* --------------------------------------------------------------------- *)
(** ** Allocators built from valid calls *)
(* --------------------------------------------------------------------- *)

Lemma children_of_construct args :
  children_of (construct args) = children args.
Proof. unfold children_of. now rewrite getArgs_construct. Qed.

Lemma children_before_empty : children_before emptyBuilder.
Proof.
  intros [|i] TR c H; simpl in H; [discriminate|].
  now rewrite lookup_nil in H.
Qed.

Lemma children_before_create A args :
  children_before A → valid_args A args →
  children_before (create A args).1.
Proof.
  intros HA Hv.
  destruct (cache_find A (TypeRefTy args) (profile args)) as [q|] eqn:E.
  { now rewrite (create_hit _ _ _ E). }
  rewrite (create_miss_fst _ _ E). intros p TR c H Hc.
  change (deref (cache_insert ?B _ _ _) p) with (deref B p) in H.
  rewrite deref_makeTypeRef in H.
  destruct (decide (p = S (length (TypeRefPool A)))) as [->|Hp].
  - injection H as <-. rewrite children_of_construct in Hc.
    specialize (Hv c Hc). lia.
  - eapply HA; eassumption.
Qed.

Lemma well_formed_create_all calls : ∀ A,
  builder_inv A → children_before A → valid_calls A calls →
  builder_inv (create_all A calls) ∧ children_before (create_all A calls).
Proof.
  induction calls as [|args calls IH]; intros A HI HC HV; simpl.
  - now split.
  - destruct HV as [Hv HV]. apply IH; [| |exact HV].
    + now apply builder_inv_create.
    + now apply children_before_create.
Qed.

Lemma well_formed_built calls :
  valid_calls emptyBuilder calls →
  builder_inv (create_all emptyBuilder calls)
  ∧ children_before (create_all emptyBuilder calls).
Proof.
  apply well_formed_create_all;
    [apply builder_inv_empty | apply children_before_empty].
Qed.

Lemma example_calls_valid : valid_calls emptyBuilder example_calls.
Proof.
  unfold example_calls. simpl. unfold valid_args.
  repeat split; intros c Hc; vm_compute in Hc |- *;
    repeat (apply elem_of_cons in Hc as [->|Hc]; [lia|]);
    now apply not_elem_of_nil in Hc.
Qed.

(* --------------------------------------------------------------------- *)
(** ** deriveSubstitutions *)
(* --------------------------------------------------------------------- *)

Lemma bound_by_weaken (A : TypeRefBuilder) (o s : nat)
    (M M' : GenericArgumentMap) :
  M ⊆ M' → bound_by A o s M → bound_by A o s M'.
Proof.
  intros Hsub H o' s' c Ha Hp.
  eapply lookup_weaken; [apply (H o' s' c Ha Hp)|exact Hsub].
Qed.

Lemma derive_children_success (A : TypeRefBuilder)
    (f : GenericArgumentMap → nat → nat → option (bool * GenericArgumentMap))
    (os : list nat) : ∀ (ss : list nat) (Subs Subs' : GenericArgumentMap),
  (∀ M o s M', o ∈ os → f M o s = Some (true, M') →
               M ⊆ M' ∧ bound_by A o s M') →
  derive_children f Subs os ss = Some (true, Subs') →
  Subs ⊆ Subs'
  ∧ ∀ i o s, os !! i = Some o → ss !! i = Some s → bound_by A o s Subs'.
Proof.
  induction os as [|o os IH]; intros [|s ss] Subs Subs' Hf H; simpl in H;
    try discriminate.
  - injection H as <-. split; [reflexivity|]. intros i o s Hi.
    now rewrite lookup_nil in Hi.
  - destruct (f Subs o s) as [[[] M1]|] eqn:E; try discriminate.
    destruct (Hf _ _ _ _ ltac:(left) E) as [Hsub1 Hb1].
    destruct (IH ss M1 Subs') as [Hsub2 Hb2]; [|exact H|].
    { intros M o' s' M' Hin. apply Hf. now right. }
    split; [now transitivity M1|].
    intros [|i] o' s' Ho Hs; simpl in Ho, Hs.
    + injection Ho as <-. injection Hs as <-.
      now apply (bound_by_weaken _ _ _ M1).
    + now apply (Hb2 i).
Qed.

Lemma walk_success (A : TypeRefBuilder) (fuel : nat) :
  ∀ (Subs : GenericArgumentMap) (O S : nat) (Subs' : GenericArgumentMap),
  deriveSubstitutions_walk fuel A Subs O S = Some (true, Subs') →
  Subs ⊆ Subs' ∧ bound_by A O S Subs'.
Proof.
  induction fuel as [|fuel IH]; intros Subs O S Subs' H; [discriminate|].
  cbn [deriveSubstitutions_walk] in H.
  destruct (deref A O) as [Orig|] eqn:EO.
  2:{ injection H as _ <-. split; [reflexivity|].
      intros o' s' c Ha (TR & HTR & _).
      inversion Ha; subst; congruence. }
  destruct (getDepthAndIndex Orig) as [c|] eqn:EG.
  { assert (Hb : ∀ M : GenericArgumentMap,
              M !! c = Some S → bound_by A O S M).
    { intros M HM o' s' c' Ha (TR & HTR & Hc').
      inversion Ha; subst; [|congruence].
      rewrite EO in HTR. injection HTR as <-. congruence. }
    destruct (Subs !! c) as [bound|] eqn:EB.
    - injection H as Hd <-. apply bool_decide_eq_true in Hd. subst bound.
      split; [reflexivity|]. now apply Hb.
    - injection H as <-. split.
      + now apply insert_subseteq.
      + apply Hb, lookup_insert_eq. }
  destruct (children_of Orig) as [|o0 os0] eqn:EC.
  { injection H as _ <-. split; [reflexivity|].
    intros o' s' c Ha (TR & HTR & Hc).
    inversion Ha as [|? ? Orig' ? i ? ? ? ? HO' _ _ _ Hi]; subst.
    - congruence.
    - rewrite EO in HO'. injection HO' as <-. rewrite EC in Hi.
      now rewrite lookup_nil in Hi. }
  destruct (deref A S) as [Subst|] eqn:ES; [|discriminate].
  destruct (decide _) as [Hshape|]; [|discriminate].
  destruct (derive_children_success A _ _ _ _ _
              (fun M o s M' _ => IH M o s M') H) as [Hsub Hb].
  split; [exact Hsub|].
  intros o' s' c Ha (TR & HTR & Hc).
  inversion Ha as [|? ? Orig' Subst' i o s ? ? HO' _ HS' _ Hi Hj Hrest]; subst.
  - congruence.
  - rewrite EO in HO'. injection HO' as <-.
    rewrite ES in HS'. injection HS' as <-.
    rewrite EC in Hi.
    apply (Hb i o s Hi Hj o' s' c Hrest). now exists TR.
Qed.

Lemma derive_children_total
    (f : GenericArgumentMap → nat → nat → option (bool * GenericArgumentMap))
    (os : list nat) : ∀ (ss : list nat) (Subs : GenericArgumentMap),
  (∀ M o s, o ∈ os → is_Some (f M o s)) →
  is_Some (derive_children f Subs os ss).
Proof.
  induction os as [|o os IH]; intros [|s ss] Subs Hf; simpl; try by eauto.
  destruct (Hf Subs o s ltac:(left)) as [[[] M] ->]; [|by eauto].
  apply IH. intros M' o' s' Hin. apply Hf. now right.
Qed.

Lemma walk_total (A : TypeRefBuilder) :
  children_before A →
  ∀ (fuel O : nat) (Subs : GenericArgumentMap) (S : nat),
    O < fuel → is_Some (deriveSubstitutions_walk fuel A Subs O S).
Proof.
  intros HA. induction fuel as [|fuel IH]; intros O Subs S HO; [lia|].
  cbn [deriveSubstitutions_walk].
  destruct (deref A O) as [Orig|] eqn:EO; [|by eauto].
  destruct (getDepthAndIndex Orig) as [c|].
  { destruct (Subs !! c); by eauto. }
  destruct (children_of Orig) as [|o0 os0] eqn:EC; [by eauto|].
  destruct (deref A S) as [Subst|]; [|by eauto].
  destruct (decide _); [|by eauto].
  apply derive_children_total. intros M o s Hin. apply IH.
  rewrite <- EC in Hin. specialize (HA O Orig o EO Hin). lia.
Qed.

Lemma deriveSubstitutions_total (A : TypeRefBuilder)
    (Subs : GenericArgumentMap) (OrigTR SubstTR : nat) :
  children_before A → is_Some (deriveSubstitutions A Subs OrigTR SubstTR).
Proof.
  intros HA. unfold deriveSubstitutions.
  destruct (decide (OrigTR < S (length (TypeRefPool A)))) as [H|H].
  - now apply walk_total.
  - cbn [deriveSubstitutions_walk].
    destruct (deref A OrigTR) as [Orig|] eqn:EO; [|by eauto].
    apply deref_valid in EO. lia.
Qed.

(** A successful call extends the map, and the result binds every generic
    parameter met by the walk to the node aligned with it. *)
Lemma deriveSubstitutions_success (A : TypeRefBuilder)
    (Subs Subs' : GenericArgumentMap) (O S : nat) :
  deriveSubstitutions A Subs O S = Some (true, Subs') →
  Subs ⊆ Subs' ∧ bound_by A O S Subs'.
Proof. apply walk_success. Qed.

Lemma Aligned_example_1 :
  Aligned example_builder 4 5 1 2.
Proof.
  eapply (Aligned_child _ 4 5 _ _ 0 1 2); try reflexivity.
  apply Aligned_here.
Qed.

Lemma Aligned_example_2 :
  Aligned example_builder 4 5 1 3.
Proof.
  eapply (Aligned_child _ 4 5 _ _ 1 1 3); try reflexivity.
  apply Aligned_here.
Qed.

Lemma parameter_at_example : parameter_at example_builder 1 (0, 0)%Z.
Proof. eexists. split; reflexivity. Qed.

(** C3. On an allocator built by valid [create] calls, deriveSubstitutions
    returns failure whenever the lock-step walk of the pattern and the
    instance pairs two generic parameters of the same coordinate with two
    distinct nodes, and whenever it pairs a generic parameter whose
    coordinate is already bound in the map with a node distinct from the
    bound one.  In particular the pattern
    Tuple([GenericTypeParameter(0,0), GenericTypeParameter(0,0)], "")
    against the instance Tuple([Nominal("Int"), Nominal("String")], "")
    fails. *)
Theorem deriveSubstitutions_conflicting_binding :
  (∀ (calls : list CreateArgs) (Subs : GenericArgumentMap)
     (OrigTR SubstTR o1 s1 o2 s2 : nat) (c : Z * Z),
     let A := create_all emptyBuilder calls in
     valid_calls emptyBuilder calls →
     Aligned A OrigTR SubstTR o1 s1 → parameter_at A o1 c →
     Aligned A OrigTR SubstTR o2 s2 → parameter_at A o2 c →
     s1 ≠ s2 →
     ∃ Subs', deriveSubstitutions A Subs OrigTR SubstTR = Some (false, Subs'))
  ∧ (∀ (calls : list CreateArgs) (Subs : GenericArgumentMap)
       (OrigTR SubstTR o s : nat) (c : Z * Z) (bound : nat),
       let A := create_all emptyBuilder calls in
       valid_calls emptyBuilder calls →
       Subs !! c = Some bound →
       Aligned A OrigTR SubstTR o s → parameter_at A o c →
       bound ≠ s →
       ∃ Subs',
         deriveSubstitutions A Subs OrigTR SubstTR = Some (false, Subs'))
  ∧ (deref example_builder 4
     = Some (TupleTypeRef [(create example_builder
                              (GenericTypeParameterArgs 0 0)).2;
                           (create example_builder
                              (GenericTypeParameterArgs 0 0)).2] "")
     ∧ deref example_builder 5
       = Some (TupleTypeRef [(create example_builder (NominalArgs "Int" 0)).2;
                             (create example_builder
                                (NominalArgs "String" 0)).2] "")
     ∧ ∃ Subs', deriveSubstitutions example_builder ∅ 4 5
                = Some (false, Subs')).
Proof.
  repeat apply conj.
  - intros calls Subs O S o1 s1 o2 s2 c A HV H1 P1 H2 P2 Hne.
    destruct (well_formed_built calls HV) as [_ HC]. fold A in HC.
    destruct (deriveSubstitutions_total A Subs O S HC) as [[[] Subs'] E];
      [|by eauto].
    exfalso. apply deriveSubstitutions_success in E as [_ Hb].
    pose proof (Hb _ _ _ H1 P1) as B1. pose proof (Hb _ _ _ H2 P2) as B2.
    congruence.
  - intros calls Subs O S o s c bound A HV HB H1 P1 Hne.
    destruct (well_formed_built calls HV) as [_ HC]. fold A in HC.
    destruct (deriveSubstitutions_total A Subs O S HC) as [[[] Subs'] E];
      [|by eauto].
    exfalso. apply deriveSubstitutions_success in E as [Hsub Hb].
    pose proof (Hb _ _ _ H1 P1) as B1.
    pose proof (lookup_weaken _ _ _ _ HB Hsub) as B2.
    congruence.
  - reflexivity.
  - reflexivity.
  - eexists. vm_compute. reflexivity.
Qed.

(** The general part of the theorem at the pattern and the instance of
    its particular part. *)
Lemma deriveSubstitutions_conflicting_binding_witness :
  ∃ Subs', deriveSubstitutions example_builder ∅ 4 5 = Some (false, Subs').
Proof.
  apply (proj1 deriveSubstitutions_conflicting_binding
           example_calls ∅ 4 5 1 2 1 3 (0, 0)%Z).
  - exact example_calls_valid.
  - exact Aligned_example_1.
  - exact parameter_at_example.
  - exact Aligned_example_2.
  - exact parameter_at_example.
  - lia.
Defined.

(* --------------------------------------------------------------------- *)
(** ** subst *)
(* --------------------------------------------------------------------- *)

Section TraverseIdentity.
Context {St : Type} (f : St → nat → option (St * nat)) (s : St).

Lemma traverse_list_id (l : list nat) :
  (∀ c, c ∈ l → f s c = Some (s, c)) → traverse_list f s l = Some (s, l).
Proof.
  induction l as [|p l IH]; intros H; simpl; [reflexivity|].
  rewrite (H p) by (now left). simpl.
  rewrite IH by (intros c Hc; apply H; now right). reflexivity.
Qed.

Lemma traverse_lists_id (ll : list (list nat)) :
  (∀ c, c ∈ concat ll → f s c = Some (s, c)) →
  traverse_lists f s ll = Some (s, ll).
Proof.
  induction ll as [|l ll IH]; intros H; simpl; [reflexivity|].
  simpl in H.
  rewrite traverse_list_id
    by (intros c Hc; apply H, elem_of_app; now left).
  simpl.
  rewrite IH by (intros c Hc; apply H, elem_of_app; now right).
  reflexivity.
Qed.

Lemma traverse_params_id (ps : list Param) :
  (∀ c, c ∈ map getType ps → f s c = Some (s, c)) →
  traverse_params f s ps = Some (s, ps).
Proof.
  induction ps as [|P ps IH]; intros H; simpl; [reflexivity|].
  simpl in H. rewrite (H (getType P)) by (now left). simpl.
  rewrite IH by (intros c Hc; apply H; now right).
  destruct P. reflexivity.
Qed.

Lemma traverse_children_id (args : CreateArgs) :
  (∀ c, c ∈ children args → f s c = Some (s, c)) →
  traverse_children f s args = Some (s, args).
Proof.
  intros H.
  assert (Hone : ∀ (c : nat) (l : list nat), c ∈ l ++ [c])
    by (intros; set_solver).
  assert (Hpre : ∀ (c : nat) (l : list nat) (x : nat), c ∈ l → c ∈ l ++ [x])
    by (intros; set_solver).
  assert (Hsingle : ∀ c : nat, c ∈ [c]) by (intros; set_solver).
  destruct args; simpl in *; try reflexivity;
    rewrite ?traverse_list_id, ?traverse_lists_id, ?traverse_params_id
      by (intros c Hc; apply H; auto);
    simpl; rewrite ?H by (auto; set_solver); reflexivity.
Qed.

End TraverseIdentity.

Lemma subst_walk_empty (A : TypeRefBuilder) :
  builder_inv A → children_before A →
  ∀ (fuel T : nat), T < fuel → subst_walk fuel ∅ A T = Some (A, T).
Proof.
  intros HI HC. induction fuel as [|fuel IH]; intros T HT; [lia|].
  cbn [subst_walk].
  destruct (deref A T) as [TR|] eqn:ET; [|reflexivity].
  assert (Hb : getDepthAndIndex TR ≫= ((∅ : GenericArgumentMap) !!.)
               = None).
  { destruct (getDepthAndIndex TR); simpl; [apply lookup_empty|reflexivity]. }
  rewrite Hb.
  destruct (pool_registered A HI T TR ET) as (args & -> & Hreg).
  rewrite getArgs_construct.
  rewrite traverse_children_id.
  - simpl. now rewrite (create_hit _ _ _ Hreg).
  - intros c Hc. apply IH.
    rewrite <- children_of_construct in Hc.
    specialize (HC T _ c ET Hc). lia.
Qed.

Lemma subst_empty (A : TypeRefBuilder) (T : nat) :
  builder_inv A → children_before A → subst A ∅ T = Some (A, T).
Proof.
  intros HI HC. unfold subst.
  destruct (decide (T < S (length (TypeRefPool A)))) as [H|H].
  - now apply subst_walk_empty.
  - cbn [subst_walk].
    destruct (deref A T) as [TR|] eqn:ET; [|reflexivity].
    apply deref_valid in ET. lia.
Qed.

Lemma example_no_GenericTypeParameter :
  no_GenericTypeParameter example_builder 5.
Proof.
  intros p TR HR HD.
  assert (Hp : p ∈ [5; 2; 3; 0]).
  { inversion HR as [|? TR5 c ? H5 Hc5 HR5]; subst; [set_solver|].
    vm_compute in H5. injection H5 as <-.
    vm_compute in Hc5.
    apply elem_of_cons in Hc5 as [->|Hc5];
      [|apply elem_of_cons in Hc5 as [->|Hc5];
        [|now apply not_elem_of_nil in Hc5]].
    - inversion HR5 as [|? TR2 c ? H2 Hc2 HR2]; subst; [set_solver|].
      vm_compute in H2. injection H2 as <-. vm_compute in Hc2.
      apply elem_of_cons in Hc2 as [->|Hc2];
        [|now apply not_elem_of_nil in Hc2].
      inversion HR2 as [|? ? ? ? H0]; subst; [set_solver|discriminate H0].
    - inversion HR5 as [|? TR3 c ? H3 Hc3 HR3]; subst; [set_solver|].
      vm_compute in H3. injection H3 as <-. vm_compute in Hc3.
      apply elem_of_cons in Hc3 as [->|Hc3];
        [|now apply not_elem_of_nil in Hc3].
      inversion HR3 as [|? ? ? ? H0]; subst; [set_solver|discriminate H0]. }
  repeat (apply elem_of_cons in Hp as [->|Hp];
          [vm_compute in HD; try discriminate HD;
           injection HD as <-; discriminate|]).
  now apply not_elem_of_nil in Hp.
Qed.

(** C4. On an allocator built by valid [create] calls, substituting with
    the empty GenericArgumentMap in a TypeRef from which no
    GenericTypeParameter node is reachable terminates, allocates nothing
    and returns the very reference it was given. *)
Theorem subst_empty_map_identity
    (calls : list CreateArgs) (T : nat) :
  let A := create_all emptyBuilder calls in
  valid_calls emptyBuilder calls →
  no_GenericTypeParameter A T →
  subst A ∅ T = Some (A, T).
Proof.
  intros A HV _. destruct (well_formed_built calls HV) as [HI HC].
  now apply subst_empty.
Qed.

(** The theorem at the tuple of Nominal("Int") and Nominal("String"). *)
Lemma subst_empty_map_identity_witness :
  subst example_builder ∅ 5 = Some (example_builder, 5).
Proof.
  apply (subst_empty_map_identity example_calls 5).
  - exact example_calls_valid.
  - exact example_no_GenericTypeParameter.
Defined.

(* --------------------------------------------------------------------- *)
(** ** The engine on the other examples of the specification *)
(* --------------------------------------------------------------------- *)

(** Unification success: the pattern Tuple([GenericTypeParameter(0,0),
    Nominal("Int")], "") against Tuple([Nominal("String"),
    Nominal("Int")], "") binds (0,0) to Nominal("String"). *)
Example deriveSubstitutions_binds :
  let A := create_all example_builder [TupleArgs [1; 2] ""; TupleArgs [3; 2] ""] in
  deriveSubstitutions A ∅ 6 7 = Some (true, {[ (0, 0)%Z := 3 ]}).
Proof. vm_compute. reflexivity. Qed.

(** Unification failure on mismatch: the same pattern against
    Tuple([Nominal("String"), Nominal("Bool")], ""). *)
Example deriveSubstitutions_mismatch :
  let A := create_all example_builder
             [TupleArgs [1; 2] ""; NominalArgs "Bool" 0; TupleArgs [3; 7] ""] in
  fst <$> deriveSubstitutions A ∅ 6 8 = Some false.
Proof. vm_compute. reflexivity. Qed.

(** Concreteness composition: substituting (0,0) by Builtin("Int") in
    BoundGeneric("Array", [GenericTypeParameter(0,0)]) gives the node that
    [create] returns for BoundGeneric("Array", [Builtin("Int")]). *)
Example subst_BoundGeneric :
  let A := create_all example_builder
             [BoundGenericArgs "Array" [1] 0; BuiltinArgs "Int"] in
  let r := subst A {[ (0, 0)%Z := 7 ]} 6 in
  snd <$> r = Some 8
  ∧ (λ '(A', _), (create A' (BoundGenericArgs "Array" [7] 0)).2) <$> r
    = Some 8
  ∧ r ≫= (λ '(A', T'), deref A' T')
    = Some (BoundGenericTypeRef "Array" [7] 0).
Proof. vm_compute. auto. Qed.

(** Two strings that differ and have the same words: the profile of a
    one-character string is that of the string padded with three NUL
    characters. *)
Example addString_padding_collision :
  profile (BuiltinArgs "a")
  = profile (BuiltinArgs (String "a" (String Ascii.zero (String Ascii.zero
                            (String Ascii.zero EmptyString))))).
Proof. reflexivity. Qed.

(* ===================================================================== *)
(** * Further properties *)
(* ===================================================================== *)

(* --------------------------------------------------------------------- *)
(** ** The words of pointers and strings *)
(* --------------------------------------------------------------------- *)

Lemma addPointer_Bits id p :
  Bits (ID.addPointer id p) = Bits id ++ pointer_words p.
Proof.
  unfold ID.addPointer, ID.push_back, pointer_words. simpl.
  now rewrite <- app_assoc.
Qed.

Lemma pointer_words_inj p q :
  pointer_ok p → pointer_ok q → pointer_words p = pointer_words q → p = q.
Proof.
  unfold pointer_ok, pointer_words, to_uint32. intros Hp Hq [= Hlo Hhi].
  rewrite !Z.shiftr_div_pow2 in Hhi by lia.
  assert (Hd : ∀ x, (0 ≤ x < 2 ^ 64 → 0 ≤ x / 2 ^ 32 < 2 ^ 32)%Z).
  { intros x Hx. split; [apply Z.div_pos; lia|].
    apply Z.div_lt_upper_bound; [lia|].
    change (2 ^ 32 * 2 ^ 32)%Z with (2 ^ 64)%Z. lia. }
  rewrite !(Z.mod_small (_ / _)) in Hhi by (apply Hd; lia).
  pose proof (Z.div_mod (Z.of_nat p) (2 ^ 32) ltac:(lia)).
  pose proof (Z.div_mod (Z.of_nat q) (2 ^ 32) ltac:(lia)).
  lia.
Qed.

Lemma addPointer_sized_Bits (size : Z) (id : TypeRefID) (p : nat) :
  Bits (addPointer_sized size id p)
  = Bits id
    ++ (Z.of_nat p mod 2 ^ 32)%Z
       :: (if (4 <? size)%Z then [((Z.of_nat p / 2 ^ 32) mod 2 ^ 32)%Z]
           else []).
Proof.
  unfold addPointer_sized, ID.push_back, to_uint32.
  destruct (4 <? size)%Z; simpl; [|reflexivity].
  rewrite <- app_assoc, Z.shiftr_div_pow2 by lia. reflexivity.
Qed.

(** X1. [addPointer] is [addPointer_sized] at the pointer size of the
    target.  Whatever that size, the words are appended after the words
    the identifier holds already: first the low 32 bits of the pointer,
    and then, when a pointer has more than 4 bytes, its next 32 bits.
    With 8-byte pointers these are two words, the low and the high half,
    which recombine to the pointer; with 4-byte pointers it is the one
    word that is the pointer.  In both cases the appended words determine
    a pointer that fits the pointer size: extending one identifier by two
    different pointers gives two different identifiers. *)
Theorem addPointer_injective (id : TypeRefID) (p q : nat) :
  ID.addPointer id p = addPointer_sized sizeof_pointer id p
  ∧ (∀ size,
       Bits (addPointer_sized size id p)
       = Bits id
         ++ (Z.of_nat p mod 2 ^ 32)%Z
            :: (if (4 <? size)%Z then [((Z.of_nat p / 2 ^ 32) mod 2 ^ 32)%Z]
                else []))
  ∧ Bits (ID.addPointer id p)
    = Bits id ++ [Z.of_nat p mod 2 ^ 32; (Z.of_nat p / 2 ^ 32) mod 2 ^ 32]%Z
  ∧ (pointer_ok p →
     (Z.of_nat p mod 2 ^ 32 + 2 ^ 32 * ((Z.of_nat p / 2 ^ 32) mod 2 ^ 32)
      = Z.of_nat p)%Z)
  ∧ (pointer_ok p → pointer_ok q →
     ID.addPointer id p = ID.addPointer id q → p = q)
  ∧ ((Z.of_nat p < 2 ^ 32)%Z → (Z.of_nat q < 2 ^ 32)%Z →
     addPointer_sized 4 id p = addPointer_sized 4 id q → p = q).
Proof.
  repeat apply conj.
  - reflexivity.
  - intros size. apply addPointer_sized_Bits.
  - apply (addPointer_sized_Bits sizeof_pointer).
  - unfold pointer_ok. intros Hp.
    pose proof (Z.div_mod (Z.of_nat p) (2 ^ 32) ltac:(lia)).
    assert (0 ≤ Z.of_nat p / 2 ^ 32 < 2 ^ 32)%Z.
    { split; [apply Z.div_pos; lia|].
      apply Z.div_lt_upper_bound; [lia|].
      change (2 ^ 32 * 2 ^ 32)%Z with (2 ^ 64)%Z. lia. }
    rewrite (Z.mod_small (Z.of_nat p / 2 ^ 32)) by lia. lia.
  - intros Hp Hq H. apply (f_equal Bits) in H.
    rewrite !addPointer_Bits in H. apply app_inv_head in H.
    now apply pointer_words_inj.
  - intros Hp Hq H. apply (f_equal Bits) in H.
    rewrite !addPointer_sized_Bits in H. apply app_inv_head in H.
    simpl in H. injection H as H.
    rewrite !Z.mod_small in H by lia. lia.
Qed.

(** The theorem at the pointers 3 and 4. *)
Lemma addPointer_injective_witness :
  Bits (ID.addPointer ID.empty 3) = [3; 0]%Z
  ∧ ID.addPointer ID.empty 3 ≠ ID.addPointer ID.empty 4
  ∧ addPointer_sized 4 ID.empty 3 ≠ addPointer_sized 4 ID.empty 4.
Proof.
  destruct (addPointer_injective ID.empty 3 4)
    as (_ & _ & Hbits & _ & H8 & H4).
  repeat apply conj.
  - rewrite Hbits. reflexivity.
  - intros H. apply H8 in H; [discriminate H | reflexivity ..].
  - intros H. apply H4 in H; [discriminate H | reflexivity ..].
Defined.

Lemma addString_Bits id s :
  Bits (ID.addString id s) = Bits id ++ string_words s.
Proof.
  destruct s as [|a s]; [reflexivity|].
  now apply addString_words.
Qed.

Lemma plain_char_range c :
  plain_char c = true → (0 < byte_of_char c < 128)%Z.
Proof. unfold plain_char. intros [H1 H2]%andb_true_iff. lia. Qed.

Lemma char_of_word_byte c r :
  char_of_word (byte_of_char c + 256 * r) = c.
Proof.
  pose proof (byte_of_char_range c). unfold char_of_word.
  replace (byte_of_char c + 256 * r)%Z with (byte_of_char c + r * 256)%Z
    by lia.
  rewrite Z.mod_add, Z.mod_small by lia.
  unfold byte_of_char. rewrite N2Z.id. apply ascii_N_embedding.
Qed.

Lemma decode_word_char c :
  plain_char c = true →
  decode_word (uint32_of_char c) = String c EmptyString.
Proof.
  intros H%plain_char_range. rewrite uint32_of_ascii by lia.
  unfold decode_word.
  destruct (Z.eqb_spec (byte_of_char c) 0) as [?|_]; [lia|].
  destruct (Z.ltb_spec (byte_of_char c) 128) as [_|?]; [|lia].
  f_equal. rewrite <- (char_of_word_byte c 0) at 2. f_equal. lia.
Qed.

Lemma decode_word_pack4 a b c d :
  plain_char a = true → plain_char b = true →
  plain_char c = true → plain_char d = true →
  decode_word (pack4 a b c d)
  = String a (String b (String c (String d EmptyString))).
Proof.
  intros Ha%plain_char_range Hb%plain_char_range
         Hc%plain_char_range Hd%plain_char_range.
  rewrite pack4_ascii by lia.
  set (x := byte_of_char a) in *. set (y := byte_of_char b) in *.
  set (z := byte_of_char c) in *. set (t := byte_of_char d) in *.
  replace (x + 2 ^ 8 * y + 2 ^ 16 * z + 2 ^ 24 * t)%Z
    with (x + 256 * (y + 256 * (z + 256 * (t + 256 * 0))))%Z by lia.
  assert (Hdiv : ∀ u r, (0 ≤ u < 256 → (u + 256 * r) / 256 = r)%Z).
  { intros u r Hu. replace (u + 256 * r)%Z with (r * 256 + u)%Z by lia.
    rewrite Z.div_add_l by lia. rewrite Z.div_small by lia. lia. }
  unfold decode_word.
  destruct (Z.eqb_spec (x + 256 * (y + 256 * (z + 256 * (t + 256 * 0)))) 0)
    as [?|_]; [lia|].
  destruct (Z.ltb_spec (x + 256 * (y + 256 * (z + 256 * (t + 256 * 0)))) 128)
    as [?|_]; [lia|].
  change (2 ^ 8)%Z with 256%Z.
  change (2 ^ 16)%Z with (256 * 256)%Z.
  change (2 ^ 24)%Z with (256 * 256 * 256)%Z.
  rewrite <- !Z.div_div by lia.
  rewrite !Hdiv by lia.
  subst x y z t. now rewrite !char_of_word_byte.
Qed.

Lemma decode_words_tail s :
  plain_string s = true →
  decode_words (map uint32_of_char (list_ascii_of_string s)) = s.
Proof.
  induction s as [|c s IH]; simpl; [reflexivity|].
  intros [Hc Hs]%andb_true_iff.
  rewrite decode_word_char, IH by assumption. reflexivity.
Qed.

Lemma decode_words_of_string n s :
  String.length s ≤ n → plain_string s = true →
  decode_words (words_of_string s) = s.
Proof.
  revert s. induction n as [|n IH]; intros s Hn Hs.
  - destruct s; simpl in Hn; [reflexivity|lia].
  - destruct s as [|a [|b [|c [|d s]]]];
      try (now apply decode_words_tail).
    cbn [words_of_string decode_words].
    simpl in Hs.
    apply andb_true_iff in Hs as [Ha Hs].
    apply andb_true_iff in Hs as [Hb Hs].
    apply andb_true_iff in Hs as [Hc Hs].
    apply andb_true_iff in Hs as [Hd Hs].
    rewrite decode_word_pack4 by assumption.
    rewrite IH by (simpl in Hn; try lia; assumption).
    reflexivity.
Qed.

Lemma decode_string_words s :
  plain_string s = true → decode_words (string_words s) = s.
Proof.
  intros Hs. destruct s as [|a s]; [reflexivity|].
  now apply (decode_words_of_string (String.length (String a s))).
Qed.

Lemma string_words_inj s t :
  plain_string s = true → plain_string t = true →
  string_words s = string_words t → s = t.
Proof.
  intros Hs Ht H. apply (f_equal decode_words) in H.
  now rewrite !decode_string_words in H.
Qed.

(** X2. On strings of plain characters (ASCII, no NUL), the empty string
    included, the words that [addString] appends determine the string:
    extending one identifier by two different plain strings gives two
    different identifiers. *)
Theorem addString_injective (id : TypeRefID) (s t : string) :
  plain_string s = true → plain_string t = true →
  ID.addString id s = ID.addString id t → s = t.
Proof.
  intros Hs Ht H. apply (f_equal Bits) in H.
  rewrite !addString_Bits in H. apply app_inv_head in H.
  now apply string_words_inj.
Qed.

(** The theorem at the names "Si" and "Sb". *)
Lemma addString_injective_witness :
  ID.addString ID.empty "Si" ≠ ID.addString ID.empty "Sb".
Proof.
  intros H.
  apply (addString_injective ID.empty "Si" "Sb") in H;
    [discriminate H | reflexivity ..].
Defined.

(* --------------------------------------------------------------------- *)
(** ** Profiles that determine their arguments *)
(* --------------------------------------------------------------------- *)

Lemma addPointers_Bits ps : ∀ id,
  Bits (Profile.addPointers id ps) = Bits id ++ concat (map pointer_words ps).
Proof.
  unfold Profile.addPointers.
  induction ps as [|p ps IH]; intros id; simpl.
  - now rewrite app_nil_r.
  - rewrite IH, addPointer_Bits, <- app_assoc. reflexivity.
Qed.

Lemma pointer_list_inj (ps : list nat) : ∀ (qs : list nat) (x y : list Z),
  Forall pointer_ok ps → Forall pointer_ok qs →
  length ps = length qs →
  concat (map pointer_words ps) ++ x = concat (map pointer_words qs) ++ y →
  ps = qs ∧ x = y.
Proof.
  induction ps as [|p ps IH]; intros [|q qs] x y Hp Hq Hl H;
    simpl in Hl; try discriminate.
  - now split.
  - inversion Hp; inversion Hq; subst.
    simpl in H. injection H as Hlo Hhi H.
    destruct (IH qs x y) as [-> ->]; auto.
    split; [|reflexivity]. f_equal.
    apply pointer_words_inj; auto. unfold pointer_words. congruence.
Qed.

Lemma profile_Bits args :
  Bits (profile args)
  = match args with
    | BuiltinArgs n | ForeignClassArgs n | ObjCClassArgs n
    | ObjCProtocolArgs n => string_words n
    | NominalArgs n p => pointer_words p ++ string_words n
    | ProtocolCompositionArgs ps s h =>
        Z.b2z h :: concat (map pointer_words ps) ++ pointer_words s
    | MetatypeArgs t w => pointer_words t ++ [Z.b2z w]
    | ExistentialMetatypeArgs t | WeakStorageArgs t | UnownedStorageArgs t
    | UnmanagedStorageArgs t | SILBoxArgs t => pointer_words t
    | GenericTypeParameterArgs d i => [d; i]
    | _ => Bits (profile args)
    end.
Proof.
  destruct args; try reflexivity; cbn [profile].
  - unfold Profile.Builtin. now rewrite addString_Bits.
  - unfold Profile.Nominal. now rewrite addString_Bits, addPointer_Bits.
  - unfold Profile.ProtocolComposition.
    now rewrite addPointer_Bits, addPointers_Bits.
  - unfold Profile.ForeignClass. now rewrite addString_Bits.
  - unfold Profile.ObjCClass. now rewrite addString_Bits.
  - unfold Profile.ObjCProtocol. now rewrite addString_Bits.
Qed.

Lemma plain_profile_inj (args1 args2 : CreateArgs) :
  plainly_profiled args1 → plainly_profiled args2 →
  TypeRefTy args1 = TypeRefTy args2 →
  profile args1 = profile args2 →
  args1 = args2.
Proof.
  intros H1 H2 HK HP. apply (f_equal Bits) in HP.
  pose proof (profile_Bits args1) as E1.
  pose proof (profile_Bits args2) as E2.
  destruct args1, args2; cbn [TypeRefTy] in HK; try discriminate HK;
    cbn [plainly_profiled] in H1, H2; try contradiction; clear HK;
    cbv beta iota in E1, E2; rewrite E1, E2 in HP; clear E1 E2.
  - f_equal. now apply string_words_inj.
  - destruct H1 as [Hn1 Hp1], H2 as [Hn2 Hp2].
    unfold pointer_words in HP. injection HP as Hlo Hhi Hs.
    f_equal; [now apply string_words_inj|].
    apply pointer_words_inj; auto. unfold pointer_words. congruence.
  - destruct H1 as [Hp1 Hs1], H2 as [Hp2 Hs2].
    injection HP as Hb HP.
    assert (Hl : length Protocols = length Protocols0).
    { apply (f_equal length) in HP.
      rewrite !length_app, !length_concat in HP.
      assert (Hsum : ∀ l : list nat,
                list_sum (map length (map pointer_words l)) = 2 * length l).
      { induction l as [|x l IHl]; simpl; [reflexivity|]. rewrite IHl. lia. }
      rewrite !Hsum in HP. simpl in HP. lia. }
    destruct (pointer_list_inj _ _ _ _ Hp1 Hp2 Hl HP) as [-> Hs].
    apply pointer_words_inj in Hs as ->; auto.
    f_equal. now destruct HasExplicitAnyObject, HasExplicitAnyObject0.
  - unfold pointer_words in HP. injection HP as Hlo Hhi Hb.
    f_equal.
    + apply pointer_words_inj; auto. unfold pointer_words. congruence.
    + now destruct WasAbstract, WasAbstract0.
  - f_equal. now apply pointer_words_inj.
  - congruence.
  - f_equal. now apply string_words_inj.
  - f_equal. now apply string_words_inj.
  - f_equal. now apply string_words_inj.
  - f_equal. now apply pointer_words_inj.
  - f_equal. now apply pointer_words_inj.
  - f_equal. now apply pointer_words_inj.
  - f_equal. now apply pointer_words_inj.
Qed.

(** X3. For a class whose profile holds only integers, a boolean,
    pointers, or one plain string after a fixed number of words (the
    classes of [plainly_profiled]), the profile determines the arguments:
    two argument tuples of one class with the same TypeRefID are equal. *)
Theorem profile_injective (args1 args2 : CreateArgs) :
  plainly_profiled args1 → plainly_profiled args2 →
  TypeRefTy args1 = TypeRefTy args2 →
  profile args1 = profile args2 →
  args1 = args2.
Proof. apply plain_profile_inj. Qed.

(** The theorem at two Metatype argument tuples that differ in the
    was-abstract flag. *)
Lemma profile_injective_witness :
  profile (MetatypeArgs 1 false) ≠ profile (MetatypeArgs 1 true).
Proof.
  intros H.
  apply (profile_injective (MetatypeArgs 1 false) (MetatypeArgs 1 true)) in H;
    [discriminate H | reflexivity ..].
Defined.

(* --------------------------------------------------------------------- *)
(** ** What a [create] call does to the allocator *)
(* --------------------------------------------------------------------- *)

(** Two calls on one allocator return the same node exactly when they
    look up the same key of the same cache. *)
Lemma create_same_node_iff_key (history : list CreateArgs)
    (args1 : CreateArgs) (between : list CreateArgs) (args2 : CreateArgs) :
  let A := create_all emptyBuilder history in
  (create A args1).2
  = (create (create_all (create A args1).1 between) args2).2
  ↔ cache_key args1 = cache_key args2.
Proof.
  intros A.
  set (A2 := (create (create_all (create A args1).1 between) args2).1).
  assert (H1 : cache_find A2 (TypeRefTy args1) (profile args1)
               = Some (create A args1).2).
  { apply cache_find_create, cache_find_create_all, create_entered. }
  assert (H2 : cache_find A2 (TypeRefTy args2) (profile args2)
               = Some (create (create_all (create A args1).1 between)
                         args2).2)
    by apply create_entered.
  assert (HI : builder_inv A2).
  { apply builder_inv_create, builder_inv_create_all, builder_inv_create,
      builder_inv_create_all, builder_inv_empty. }
  unfold cache_key. split.
  - intros E. rewrite E in H1.
    destruct (cache_injective _ _ _ _ _ _ HI H1 H2). congruence.
  - intros [= HK HP]. rewrite HK, HP in H1. congruence.
Qed.

(** X4. For the classes of [plainly_profiled], uniquing is exact: on one
    allocator, two [create] calls, with any calls between them, return the
    same node if and only if their arguments are equal. *)
Theorem create_plainly_profiled (history : list CreateArgs)
    (args1 : CreateArgs) (between : list CreateArgs) (args2 : CreateArgs) :
  plainly_profiled args1 → plainly_profiled args2 →
  let A := create_all emptyBuilder history in
  (create A args1).2
  = (create (create_all (create A args1).1 between) args2).2
  ↔ args1 = args2.
Proof.
  intros H1 H2 A. unfold A. rewrite create_same_node_iff_key. split.
  - intros [= HK HP]. now apply plain_profile_inj.
  - now intros ->.
Qed.

(** The theorem at GenericTypeParameter(0,0) and GenericTypeParameter(0,1),
    after the calls of the examples. *)
Lemma create_plainly_profiled_witness :
  (create example_builder (GenericTypeParameterArgs 0 0)).2
  ≠ (create (create_all
               (create example_builder (GenericTypeParameterArgs 0 0)).1
               [BuiltinArgs "Bi"])
       (GenericTypeParameterArgs 0 1)).2.
Proof.
  intros H.
  apply (create_plainly_profiled example_calls (GenericTypeParameterArgs 0 0)
           [BuiltinArgs "Bi"] (GenericTypeParameterArgs 0 1)) in H;
    [discriminate H | exact I ..].
Defined.

(** X5. On any allocator reached from the empty one, [create] returns a
    reference that is not null and designates a node of the allocator;
    this node was constructed by the class asked for, from arguments with
    the profile of the arguments given, so [classof] of that class holds
    for it; and when the key was not in the cache before the call, it is
    the node constructed from the very arguments given. *)
Theorem create_returns_node (history : list CreateArgs) (args : CreateArgs) :
  let A := create_all emptyBuilder history in
  let A' := (create A args).1 in
  let p := (create A args).2 in
  p ≠ 0 ∧ p ≤ length (TypeRefPool A')
  ∧ ∃ args',
      deref A' p = Some (construct args')
      ∧ cache_key args' = cache_key args
      ∧ classof (TypeRefTy args) (construct args') = true
      ∧ (cache_find A (TypeRefTy args) (profile args) = None →
         args' = args).
Proof.
  intros A A' p.
  assert (HI : builder_inv A').
  { apply builder_inv_create, builder_inv_create_all, builder_inv_empty. }
  destruct (cache_sound A' HI _ _ _ (create_entered A args))
    as (args' & HD & HK & HP).
  fold A' p in HD. pose proof (deref_valid _ _ _ HD).
  split; [lia|]. split; [lia|].
  exists args'. repeat apply conj.
  - exact HD.
  - unfold cache_key. congruence.
  - unfold classof, TypeRefKind.eqb. rewrite getKind_construct.
    now apply bool_decide_eq_true.
  - intros Hnew. apply construct_inj.
    assert (HD' : deref A' p = Some (construct args)).
    { unfold A', p.
      rewrite (create_miss_fst _ _ Hnew), (create_miss_snd _ _ Hnew).
      change (deref (cache_insert ?B _ _ _) ?q) with (deref B q).
      now rewrite deref_makeTypeRef, decide_True. }
    congruence.
Qed.

(** The theorem at a first Tuple call on the allocator of the examples:
    the node returned is the tuple constructed from the arguments. *)
Lemma create_returns_node_witness :
  ∃ args',
    deref (create example_builder (TupleArgs [2; 2] "a b ")).1
      (create example_builder (TupleArgs [2; 2] "a b ")).2
    = Some (construct args')
    ∧ args' = TupleArgs [2; 2] "a b ".
Proof.
  destruct (create_returns_node example_calls (TupleArgs [2; 2] "a b "))
    as (_ & _ & args' & HD & _ & _ & Hnew).
  exists args'. split; [exact HD|]. apply Hnew. reflexivity.
Defined.

(** X6. A [create] call appends one node to the pool when its key is not
    in the cache and leaves the pool as it is otherwise, and the nodes
    already in the pool stay where they are; calling [create] again with
    the same arguments changes nothing in the allocator and returns the
    same node. *)
Theorem create_idempotent (A : TypeRefBuilder) (args : CreateArgs) :
  TypeRefPool (create A args).1
  = TypeRefPool A
    ++ match cache_find A (TypeRefTy args) (profile args) with
       | Some _ => []
       | None => [construct args]
       end
  ∧ create (create A args).1 args = create A args.
Proof.
  split.
  - destruct (cache_find A (TypeRefTy args) (profile args)) as [q|] eqn:E.
    + rewrite (create_hit _ _ _ E). simpl. now rewrite app_nil_r.
    + now rewrite (create_miss_fst _ _ E).
  - rewrite (create_hit _ _ _ (create_entered A args)).
    now destruct (create A args).
Qed.

Lemma size_invariant_create (A : TypeRefBuilder) (args : CreateArgs)
    (keys : gset (TypeRefKind.t * TypeRefID)) :
  (∀ K ID, is_Some (cache_find A K ID) ↔ (K, ID) ∈ keys) →
  length (TypeRefPool A) = size keys →
  (∀ K ID, is_Some (cache_find (create A args).1 K ID)
           ↔ (K, ID) ∈ {[cache_key args]} ∪ keys)
  ∧ length (TypeRefPool (create A args).1)
    = size ({[cache_key args]} ∪ keys).
Proof.
  intros HK HL.
  destruct (cache_find A (TypeRefTy args) (profile args)) as [q|] eqn:E.
  - rewrite (create_hit _ _ _ E). simpl.
    assert (Hin : cache_key args ∈ keys) by (apply HK; rewrite E; eauto).
    rewrite (subseteq_union_1_L {[cache_key args]} keys)
      by now apply singleton_subseteq_l.
    now split.
  - rewrite (create_miss_fst _ _ E).
    assert (Hout : cache_key args ∉ keys).
    { intros Hin. apply HK in Hin. rewrite E in Hin. now destruct Hin. }
    split.
    + intros K ID. rewrite cache_find_insert by exact E.
      rewrite elem_of_union, elem_of_singleton. unfold cache_key.
      destruct (decide _) as [[-> ->]|Hne].
      * split; [now left|eauto].
      * change (cache_find (makeTypeRef A (construct args)).1 K ID)
          with (cache_find A K ID).
        rewrite HK. split; [now right|].
        intros [[= -> ->]|?]; [tauto|assumption].
    + change (TypeRefPool (cache_insert ?B _ _ _)) with (TypeRefPool B).
      unfold makeTypeRef. simpl. rewrite length_app. simpl.
      rewrite size_union by now apply disjoint_singleton_l.
      rewrite size_singleton. lia.
Qed.

Lemma size_invariant_create_all (calls : list CreateArgs) :
  ∀ (A : TypeRefBuilder) (keys : gset (TypeRefKind.t * TypeRefID)),
    (∀ K ID, is_Some (cache_find A K ID) ↔ (K, ID) ∈ keys) →
    length (TypeRefPool A) = size keys →
    length (TypeRefPool (create_all A calls))
    = size (list_to_set (map cache_key calls) ∪ keys).
Proof.
  induction calls as [|args calls IH]; intros A keys HK HL; simpl.
  - rewrite HL. now rewrite union_empty_l_L.
  - destruct (size_invariant_create A args keys HK HL) as [HK' HL'].
    rewrite (IH _ _ HK' HL'). f_equal.
    rewrite (assoc_L (∪)). f_equal. apply (comm_L (∪)).
Qed.

(** X7. After any run of [create] calls on a fresh allocator, the pool
    holds exactly one node for every different key (class and TypeRefID)
    that was asked for: its size is the number of different keys among the
    calls. *)
Theorem pool_size_distinct_keys (calls : list CreateArgs) :
  length (TypeRefPool (create_all emptyBuilder calls))
  = size (list_to_set (map cache_key calls)
          : gset (TypeRefKind.t * TypeRefID)).
Proof.
  rewrite (size_invariant_create_all calls emptyBuilder ∅).
  - now rewrite union_empty_r_L.
  - intros K ID. unfold cache_find. simpl. rewrite lookup_empty.
    split; [intros [? [=]]|]. intros H. now apply not_elem_of_empty in H.
  - reflexivity.
Qed.

(** X8. On any allocator reached from the empty one, two references that
    designate equal nodes (the same kind and the same members) are the
    same reference: the pool never holds a node twice, so comparing
    references decides the equality of nodes. *)
Theorem pool_nodes_unique (history : list CreateArgs) (p q : nat)
    (TR : TypeRef) :
  let A := create_all emptyBuilder history in
  deref A p = Some TR → deref A q = Some TR → p = q.
Proof.
  intros A Hp Hq.
  assert (HI : builder_inv A)
    by apply builder_inv_create_all, builder_inv_empty.
  destruct (pool_registered A HI p TR Hp) as (a1 & E1 & H1).
  destruct (pool_registered A HI q TR Hq) as (a2 & E2 & H2).
  assert (a1 = a2) by (apply construct_inj; congruence).
  subst a2. congruence.
Qed.

(** The theorem at the node of Nominal("Int") in the allocator of the
    examples. *)
Lemma pool_nodes_unique_witness :
  (create example_builder (NominalArgs "Int" 0)).2 = 2.
Proof.
  apply (pool_nodes_unique example_calls _ 2 (NominalTypeRef "Int" 0));
    reflexivity.
Defined.

Lemma Reaches_le (A : TypeRefBuilder) (T p : nat) :
  children_before A → Reaches A T p → p ≤ T.
Proof.
  intros HC H. induction H as [T|T TR c p HD Hc _ IH]; [lia|].
  specialize (HC T TR c HD Hc). lia.
Qed.

(** X9. In an allocator built by [create] calls whose child references
    are null or designate nodes of the allocator, every child reference
    stored in a node is null or designates a node created before it, and
    so is everything reachable through it: no node is its own descendant. *)
Theorem children_created_before (calls : list CreateArgs) (T c p : nat)
    (TR : TypeRef) :
  let A := create_all emptyBuilder calls in
  valid_calls emptyBuilder calls →
  deref A T = Some TR → c ∈ children_of TR →
  (c = 0 ∨ is_Some (deref A c))
  ∧ c < T
  ∧ (Reaches A c p → p < T).
Proof.
  intros A HV HD Hc.
  destruct (well_formed_built calls HV) as [_ HC]. fold A in HC.
  pose proof (HC T TR c HD Hc) as Hlt.
  pose proof (deref_valid _ _ _ HD) as HT.
  repeat apply conj.
  - destruct c as [|i]; [now left|right]. simpl.
    apply lookup_lt_is_Some. lia.
  - exact Hlt.
  - intros HR. pose proof (Reaches_le A c p HC HR). lia.
Qed.

(** The theorem at the tuple of Int and String of the examples and its
    second element. *)
Lemma children_created_before_witness :
  (3 = 0 ∨ is_Some (deref example_builder 3)) ∧ 3 < 5 ∧ 0 < 5.
Proof.
  destruct (children_created_before example_calls 5 3 0
              (TupleTypeRef [2; 3] "")) as (Hc & Hlt & Hr).
  - exact example_calls_valid.
  - reflexivity.
  - apply list_elem_of_lookup. exists 1. reflexivity.
  - split; [exact Hc|]. split; [exact Hlt|]. apply Hr.
    apply (Reaches_child _ 3 (NominalTypeRef "String" 0) 0 0).
    + reflexivity.
    + apply list_elem_of_lookup. exists 0. reflexivity.
    + apply Reaches_here.
Defined.

(* --------------------------------------------------------------------- *)
(** ** More on getLabels and on the argument views *)
(* --------------------------------------------------------------------- *)

Lemma count_spaces_append (a b : string) :
  count_spaces (String.append a b) = count_spaces a + count_spaces b.
Proof.
  induction a as [|x a IH]; rewrite ?append_nil, ?append_cons; simpl;
    [reflexivity|]. rewrite IH. lia.
Qed.

Lemma count_spaces_no_space (s : string) :
  no_space s = true → count_spaces s = 0.
Proof.
  induction s as [|x s IH]; simpl; [reflexivity|].
  intros [Hx Hs]%andb_true_iff.
  destruct (Ascii.eqb x " "); [discriminate|]. now rewrite IH.
Qed.

Lemma count_spaces_terminated (labels : list string) :
  Forall (fun l => no_space l = true) labels →
  count_spaces (terminated labels) = length labels.
Proof.
  induction 1 as [|l labels Hl _ IH]; simpl; [reflexivity|].
  rewrite count_spaces_append, (count_spaces_no_space l Hl). simpl.
  now rewrite IH.
Qed.

(** X10. Whatever the elements and the label string, getLabels returns
    labels none of which holds a space, and their number is the larger of
    the number of spaces of the label string and the number of elements:
    there is a label for every element index. *)
Theorem getLabels_length (Elements : list nat) (Labels : string) :
  ∃ Vec,
    getLabels (TupleTypeRef Elements Labels) = Some Vec
    ∧ length Vec = Nat.max (count_spaces Labels) (length Elements)
    ∧ Forall (fun l => no_space l = true) Vec.
Proof.
  destruct (label_string_decomposition Labels)
    as (labels & tail & Hl & Ht & ->).
  eexists. split; [now apply getLabels_terminated|]. split.
  - rewrite count_spaces_append, (count_spaces_no_space tail Ht),
      (count_spaces_terminated labels Hl).
    rewrite length_app, length_replicate. lia.
  - apply Forall_app. split; [exact Hl|].
    apply Forall_replicate. reflexivity.
Qed.

Lemma views_from_tile (lengths : list nat) : ∀ (data i : nat) (v w : ArrayRef),
  views_from data lengths !! i = Some v →
  views_from data lengths !! S i = Some w →
  view_data w = view_data v + view_size v.
Proof.
  induction lengths as [|n lengths IH]; intros data i v w Hv Hw;
    [discriminate|].
  destruct i as [|i]; simpl in Hv, Hw.
  - injection Hv as <-. destruct lengths as [|m lengths]; [discriminate|].
    simpl in Hw. now injection Hw as <-.
  - now apply (IH (data + n) i).
Qed.

Lemma views_from_last (lengths : list nat) : ∀ (data : nat) (v : ArrayRef),
  last (views_from data lengths) = Some v →
  view_data v + view_size v = data + list_sum lengths.
Proof.
  induction lengths as [|n lengths IH]; intros data v Hv; [discriminate|].
  destruct lengths as [|m lengths].
  - simpl in Hv. injection Hv as <-. simpl. lia.
  - change (last (views_from (data + n) (m :: lengths)) = Some v) in Hv.
    rewrite (IH _ _ Hv). simpl. lia.
Qed.

(** X11. The views that an OpaqueArchetypeTypeRef publishes tile its
    buffer: the first view starts at the start of the buffer, every other
    view starts where the one before it ends, and the last view ends at
    the end of the buffer; no element of the buffer is shared by two
    views or left out. *)
Theorem OpaqueArchetype_views_tile (id description : string) (ordinal : Z)
    (argumentLists : list (list nat)) :
  let TR := OpaqueArchetypeTypeRef id description ordinal argumentLists in
  (∀ v, head (getArgumentLists TR) = Some v → view_data v = 0)
  ∧ (∀ i v w,
       getArgumentLists TR !! i = Some v →
       getArgumentLists TR !! S i = Some w →
       view_data w = view_data v + view_size v)
  ∧ (∀ v, last (getArgumentLists TR) = Some v →
          view_data v + view_size v = length (getAllArgumentsBuf TR)).
Proof.
  intros TR. subst TR. rewrite OpaqueArchetypeTypeRef_eq.
  unfold getArgumentLists, getAllArgumentsBuf. simpl.
  repeat apply conj.
  - intros v Hv. destruct argumentLists; [discriminate|].
    simpl in Hv. now injection Hv as <-.
  - apply views_from_tile.
  - intros v Hv. rewrite (views_from_last _ _ _ Hv), length_concat_sum.
    reflexivity.
Qed.

(** The theorem at the argument lists [[1; 2]; [3]]. *)
Lemma OpaqueArchetype_views_tile_witness :
  ∃ v w,
    getArgumentLists (OpaqueArchetypeTypeRef "id" "d" 0 [[1; 2]; [3]]) !! 0
    = Some v
    ∧ getArgumentLists (OpaqueArchetypeTypeRef "id" "d" 0 [[1; 2]; [3]]) !! 1
      = Some w
    ∧ view_data w = view_data v + view_size v.
Proof.
  exists (mkArrayRef 0 2), (mkArrayRef 2 1).
  split; [reflexivity|]. split; [reflexivity|].
  apply (proj1 (proj2 (OpaqueArchetype_views_tile "id" "d" 0
                         [[1; 2]; [3]])) 0); reflexivity.
Defined.

(* --------------------------------------------------------------------- *)
(** ** OpaqueArchetypeTypeRef::Profile *)
(* --------------------------------------------------------------------- *)








(** Why the arguments must not have a zero low word: a list holding the
    null pointer and three empty lists give the same words. *)
Example argument_lists_null_collision :
  argument_lists_words [[0]] = argument_lists_words [[]; []; []].
Proof. reflexivity. Qed.
